(** * The exception (throw/catch) mechanism of GDB: [gdb/exceptions.c]

    A shallow embedding of [exceptions.c] and the verification of its
    specification.  The C code keeps a process-wide stack of catchers
    ([current_catcher]), each frame holding a [jmp_buf], a pointer to the
    [struct exception] local of the catch primitive that created it, a
    mask and the saved [uiout] and cleanup chain.  [throw_exception]
    longjmps to the top frame; the catch primitives land the jump in their
    [for (SIGSETJMP (..); catcher_state_machine (CATCH_ITER);)] loop.

    The embedding is a state-and-outcome monad over the globals the file
    touches.  A [siglongjmp] in flight is an outcome of its own that every
    caller passes on until the loop that owns the [jmp_buf] lands it. *)

From Stdlib Require Import ZArith String List Lia Bool.
From stdpp Require Import base gmap strings list.
Import ListNotations.

Local Open Scope string_scope.
Local Open Scope list_scope.
Local Open Scope Z_scope.

(** ** Declarations that come from other files *)

(** What [exceptions.c] takes from [exceptions.h], [defs.h] and [utils.c]
    and that is not part of the file itself: the two members of
    [enum return_reason], the macro [RETURN_MASK], two members of
    [enum errors], and the formatter [xstrvprintf].  They are parameters of
    everything below. *)
Class exceptions_h : Type := {
  RETURN_QUIT : Z;
  RETURN_ERROR : Z;
  RETURN_MASK : Z -> Z;
  NO_ERROR : Z;
  GENERIC_ERROR : Z;
  xstrvprintf : string -> list string -> string
}.

(** Addresses: of the heap blocks [XZALLOC] and [xstrdup] return, of the
    [struct exception] locals of the catch primitives, and of the [char *]
    variables callers pass by reference.  Blocks are named by a counter
    ([brk] below), so that two live objects never share an address. *)
Abbreviation addr := nat.

(** [struct ui_out *], [struct cleanup *] and [struct ui_file *] are opaque
    handles for this file. *)
Abbreviation ui_out := Z.
Abbreviation cleanup := Z.

Inductive ui_file : Type :=
| gdb_stdout
| gdb_stderr
| other_file (n : nat).

(** ** The data model *)

(** [struct exception]: [reason] is an [enum return_reason] or 0, [error]
    an [enum errors], [message] a [char *] (here by its contents, [None]
    for [NULL]). *)
Record exception : Type := mk_exception {
  reason : Z;
  error : Z;
  message : option string
}.

(** A [char *] variable a caller owns: [NULL], the address of a buffer
    [xstrdup] returned, or a pointer into the buffer the file-static
    [last_message] points to. *)
Inductive char_ptr : Type :=
| NULL
| Block (q : addr)
| Into_last_message.

(** What lives at an address of the character memory: the text of a
    buffer, or a [char *] variable passed by reference. *)
Inductive char_cell : Type :=
| Chars (text : string)
| Char_ptr (p : char_ptr).

(** What a caller hands to a formatter, as the format or as one of the
    arguments of the [va_list]: something read as [text] (a string that
    lives outside [last_message], a number), or a [char *] into the buffer
    [last_message] points to, such as the [message] of an exception thrown
    earlier. *)
Inductive c_str : Type :=
| Str (text : string)
| Str_last_message.

Coercion Str : string >-> c_str.

(** [enum catcher_state] *)
Inductive catcher_state : Type :=
| CATCHER_CREATED
| CATCHER_RUNNING
| CATCHER_RUNNING_1
| CATCHER_ABORTING.

(** [enum catcher_action] *)
Inductive catcher_action : Type :=
| CATCH_ITER
| CATCH_ITER_1
| CATCH_THROWING.

(** [struct catcher].  [buf] is the address of the frame's [SIGJMP_BUF]
    (the frame's own address), [exception_ptr] the field [exception]; the
    back link [prev] is the tail of the list that holds the frame. *)
Record catcher : Type := mk_catcher {
  state : catcher_state;
  buf : addr;
  exception_ptr : addr;
  mask : Z;
  saved_uiout : ui_out;
  saved_cleanup_chain : list cleanup
}.

Definition set_state (st : catcher_state) (c : catcher) : catcher :=
  {| state := st; buf := buf c; exception_ptr := exception_ptr c;
     mask := mask c; saved_uiout := saved_uiout c;
     saved_cleanup_chain := saved_cleanup_chain c |}.

(** Calls into the collaborators of the file, in the order they are made. *)
Inductive event : Type :=
| Call_bpstat_clear_actions
| Call_disable_current_display
| Call_do_cleanups (chain : list cleanup)
| Call_do_exec_cleanups
| Call_do_exec_error_cleanups
| Call_deprecated_error_begin_hook
| Call_target_terminal_ours
| Call_wrap_here (text : string)
| Call_gdb_flush (file : ui_file)
| Call_annotate_error_begin
| Call_annotate_quit
| Call_annotate_error
| Call_fputs_filtered (text : string) (file : ui_file)
| Call_ui_file_write (file : ui_file) (text : string)
| Call_fprintf_filtered (file : ui_file) (text : string)
| Call_vfprintf_filtered (file : ui_file) (fmt : string) (args : list string).

(** The globals [exceptions.c] reads and writes, the memory its pointers
    point into, and the log of its calls to collaborators. *)
Record gdb : Type := mk_gdb {
  current_catcher : list catcher;
  uiout : ui_out;
  cleanup_chain : list cleanup;
  quit_flag : Z;
  immediate_quit : Z;
  last_message : option string;
  target_can_async_p : bool;
  target_executing : Z;
  sync_execution : Z;
  deprecated_error_begin_hook : bool;
  mem : gmap nat exception;
  char_mem : gmap nat char_cell;
  brk : addr;
  trace : list event
}.

Definition set_current_catcher (v : list catcher) (s : gdb) : gdb :=
  mk_gdb v (uiout s) (cleanup_chain s) (quit_flag s) (immediate_quit s)
    (last_message s) (target_can_async_p s) (target_executing s)
    (sync_execution s) (deprecated_error_begin_hook s) (mem s) (char_mem s)
    (brk s) (trace s).

Definition set_uiout (v : ui_out) (s : gdb) : gdb :=
  mk_gdb (current_catcher s) v (cleanup_chain s) (quit_flag s)
    (immediate_quit s) (last_message s) (target_can_async_p s)
    (target_executing s) (sync_execution s) (deprecated_error_begin_hook s)
    (mem s) (char_mem s) (brk s) (trace s).

Definition set_cleanup_chain (v : list cleanup) (s : gdb) : gdb :=
  mk_gdb (current_catcher s) (uiout s) v (quit_flag s) (immediate_quit s)
    (last_message s) (target_can_async_p s) (target_executing s)
    (sync_execution s) (deprecated_error_begin_hook s) (mem s) (char_mem s)
    (brk s) (trace s).

Definition set_quit_flag (v : Z) (s : gdb) : gdb :=
  mk_gdb (current_catcher s) (uiout s) (cleanup_chain s) v (immediate_quit s)
    (last_message s) (target_can_async_p s) (target_executing s)
    (sync_execution s) (deprecated_error_begin_hook s) (mem s) (char_mem s)
    (brk s) (trace s).

Definition set_immediate_quit (v : Z) (s : gdb) : gdb :=
  mk_gdb (current_catcher s) (uiout s) (cleanup_chain s) (quit_flag s) v
    (last_message s) (target_can_async_p s) (target_executing s)
    (sync_execution s) (deprecated_error_begin_hook s) (mem s) (char_mem s)
    (brk s) (trace s).

Definition set_last_message (v : option string) (s : gdb) : gdb :=
  mk_gdb (current_catcher s) (uiout s) (cleanup_chain s) (quit_flag s)
    (immediate_quit s) v (target_can_async_p s) (target_executing s)
    (sync_execution s) (deprecated_error_begin_hook s) (mem s) (char_mem s)
    (brk s) (trace s).

Definition set_mem (v : gmap nat exception) (s : gdb) : gdb :=
  mk_gdb (current_catcher s) (uiout s) (cleanup_chain s) (quit_flag s)
    (immediate_quit s) (last_message s) (target_can_async_p s)
    (target_executing s) (sync_execution s) (deprecated_error_begin_hook s)
    v (char_mem s) (brk s) (trace s).

Definition set_char_mem (v : gmap nat char_cell) (s : gdb) : gdb :=
  mk_gdb (current_catcher s) (uiout s) (cleanup_chain s) (quit_flag s)
    (immediate_quit s) (last_message s) (target_can_async_p s)
    (target_executing s) (sync_execution s) (deprecated_error_begin_hook s)
    (mem s) v (brk s) (trace s).

Definition set_brk (v : addr) (s : gdb) : gdb :=
  mk_gdb (current_catcher s) (uiout s) (cleanup_chain s) (quit_flag s)
    (immediate_quit s) (last_message s) (target_can_async_p s)
    (target_executing s) (sync_execution s) (deprecated_error_begin_hook s)
    (mem s) (char_mem s) v (trace s).

(** A call to a collaborator is appended to the log. *)
Definition log (e : event) (s : gdb) : gdb :=
  mk_gdb (current_catcher s) (uiout s) (cleanup_chain s) (quit_flag s)
    (immediate_quit s) (last_message s) (target_can_async_p s)
    (target_executing s) (sync_execution s) (deprecated_error_begin_hook s)
    (mem s) (char_mem s) (brk s) (trace s ++ [e]).

(** ** Outcomes of a call *)

(** Why a call has no defined behaviour in C. *)
Inductive undefined_behaviour : Type :=
| NullCatcher   (* [current_catcher] dereferenced while it is [NULL] *)
| WildPointer   (* a [struct exception *] that points to no object *)
| FreedBuffer.  (* a buffer read after [xfree] released it *)

(** How a call of a C function ends: it returns; a [siglongjmp (buf, val)]
    is in flight; [internal_error] was called (it does not return); the
    behaviour is undefined; or the model ran out of fuel. *)
Inductive result (A : Type) : Type :=
| Returns (a : A) (s : gdb)
| LongJmp (target : addr) (val : Z) (s : gdb)
| InternalError (line : nat) (msg : string) (s : gdb)
| Undefined (why : undefined_behaviour) (s : gdb)
| OutOfFuel.

Arguments Returns {A} a s.
Arguments LongJmp {A} target val s.
Arguments InternalError {A} line msg s.
Arguments Undefined {A} why s.
Arguments OutOfFuel {A}.

Definition M (A : Type) : Type := gdb -> result A.

Definition ret {A} (a : A) : M A := fun s => Returns a s.

Definition bind {A B} (m : M A) (k : A -> M B) : M B := fun s =>
  match m s with
  | Returns a s' => k a s'
  | LongJmp b v s' => LongJmp b v s'
  | InternalError l msg s' => InternalError l msg s'
  | Undefined w s' => Undefined w s'
  | OutOfFuel => OutOfFuel
  end.

Declare Scope gdb_scope.
Delimit Scope gdb_scope with gdb.
Notation "x <- m ;; k" := (bind m (fun x => k))
  (at level 100, m at next level, right associativity) : gdb_scope.
Notation "m ;; k" := (bind m (fun _ => k))
  (at level 100, right associativity) : gdb_scope.
Local Open Scope gdb_scope.

(** A state change that cannot fail. *)
Definition modify (f : gdb -> gdb) : M unit := fun s => Returns tt (f s).

(** Modelled from the spec: [internal_error (__FILE__, line, msg)]
    ([utils.c], not among the sources) is "a fatal internal-consistency error" that
    "must abort the process with diagnostic context": the call does not
    return, and the outcome keeps the line and the message. *)
Definition internal_error {A} (line : nat) (msg : string) : M A :=
  fun s => InternalError line msg s.

(** [SIGLONGJMP (buf, val)] *)
Definition SIGLONGJMP {A} (target : addr) (val : Z) : M A :=
  fun s => LongJmp target val s.

(** Modelled from the spec: [gdb_assert (expr)] ([gdb_assert.h], not among
    the sources) "asserts as a programming invariant": an [internal_error]
    that names the expression when it is false. *)
Definition gdb_assert (line : nat) (expr : string) (holds : bool) : M unit :=
  if holds then ret tt else internal_error line expr.

(** ** The collaborators *)

(** Modelled from the spec: the cleanup registry ([utils.c], not among the
    sources) is "an ordered list of deferred actions" of which the core needs
    [save_cleanups () -> token], [restore_cleanups (token)] and
    [run_cleanups (scope)].  The token is the chain itself: saving hands the
    chain over and starts an empty one, restoring puts a saved chain back. *)
Definition save_cleanups : M (list cleanup) := fun s =>
  Returns (cleanup_chain s) (set_cleanup_chain [] s).

Definition restore_cleanups (chain : list cleanup) : M unit :=
  modify (set_cleanup_chain chain).

(** Modelled from the spec: [do_cleanups (ALL_CLEANUPS)] runs every cleanup
    of the current chain and leaves the chain empty; what the cleanups do is
    outside this file, the call is logged with the chain it ran. *)
Definition do_cleanups_ALL : M unit := fun s =>
  Returns tt (log (Call_do_cleanups (cleanup_chain s)) (set_cleanup_chain [] s)).

(** Calls whose effect is outside this file are logged. *)
Definition call (e : event) : M unit := modify (log e).

(** ** The memory the file's pointers point into *)

(** The address of a local whose address is taken ([&exception]). *)
Definition alloca : M addr := fun s => Returns (brk s) (set_brk (S (brk s)) s).

(** [XZALLOC (struct catcher)]: a block nobody else holds. *)
Definition XZALLOC : M addr := fun s => Returns (brk s) (set_brk (S (brk s)) s).

(** [*p = e] for [p : struct exception *] *)
Definition store (p : addr) (e : exception) : M unit :=
  modify (fun s => set_mem (<[p := e]> (mem s)) s).

(** [*p] for [p : struct exception *] *)
Definition load (p : addr) : M exception := fun s =>
  match mem s !! p with
  | Some e => Returns e s
  | None => Undefined WildPointer s
  end.

(** [*p = str] for [p : char **] *)
Definition store_char_ptr (p : addr) (str : char_ptr) : M unit :=
  modify (fun s => set_char_mem (<[p := Char_ptr str]> (char_mem s)) s).

(** [xstrdup (str)]: a buffer of its own, which nobody else holds, with
    the text of [str]. *)
Definition xstrdup (text : string) : M addr := fun s =>
  Returns (brk s)
    (set_char_mem (<[brk s := Chars text]> (char_mem s))
       (set_brk (S (brk s)) s)).

(** The texts a formatter reads from a [va_list] after [last_message] has
    been released: there are none once an argument points into that
    buffer. *)
Fixpoint va_texts (ap : list c_str) : option (list string) :=
  match ap with
  | [] => Some []
  | Str text :: rest =>
      match va_texts rest with
      | Some texts => Some (text :: texts)
      | None => None
      end
  | Str_last_message :: _ => None
  end.

(** ** exceptions.c *)

Section ExceptionsC.

Context {H : exceptions_h}.

(** [const struct exception exception_none = { 0, NO_ERROR, NULL };] *)
Definition exception_none : exception :=
  {| reason := 0; error := NO_ERROR; message := None |}.

(** [catcher_init]: returns [&new_catcher->buf]. *)
Definition catcher_init (func_uiout : ui_out) (exception : addr)
    (mask : Z) : M addr :=
  new_catcher <- XZALLOC ;;
  (* Start with no exception, save it's address.  *)
  store exception {| reason := 0; error := NO_ERROR; message := None |} ;;
  (* Override the global ``struct ui_out'' builder.  *)
  saved_uiout <- (fun s => Returns (uiout s) s) ;;
  modify (set_uiout func_uiout) ;;
  (* Prevent error/quit during FUNC from calling cleanups established
     prior to here. *)
  saved_cleanup_chain <- save_cleanups ;;
  (* Push this new catcher on the top.  *)
  modify (fun s =>
    set_current_catcher
      ({| state := CATCHER_CREATED; buf := new_catcher;
          exception_ptr := exception; mask := mask;
          saved_uiout := saved_uiout;
          saved_cleanup_chain := saved_cleanup_chain |}
       :: current_catcher s) s) ;;
  ret new_catcher.

(** [catcher_pop] *)
Definition catcher_pop : M unit := fun s =>
  match current_catcher s with
  | [] => Undefined NullCatcher s
  | old_catcher :: prev =>
      (modify (set_current_catcher prev) ;;
       (* Restore the cleanup chain, the error/quit messages, and the uiout
          builder, to their original states. *)
       restore_cleanups (saved_cleanup_chain old_catcher) ;;
       modify (set_uiout (saved_uiout old_catcher))
       (* xfree (old_catcher): the frame is no longer in the list *)) s
  end.

(** [current_catcher->state = st] *)
Definition set_catcher_state (st : catcher_state) : M unit := fun s =>
  match current_catcher s with
  | [] => Undefined NullCatcher s
  | c :: prev => Returns tt (set_current_catcher (set_state st c :: prev) s)
  end.

(** The body of [catcher_state_machine].  The function and
    [throw_exception] call each other; the call of [throw_exception] in the
    [CATCHER_ABORTING] case is the parameter [relay], tied below. *)
Definition catcher_state_machine_with (relay : exception -> M Z)
    (action : catcher_action) : M Z := fun s =>
  match current_catcher s with
  | [] => Undefined NullCatcher s
  | c :: _ =>
    match state c with
    | CATCHER_CREATED =>
        match action with
        | CATCH_ITER =>
            (* Allow the code to run the catcher.  *)
            (set_catcher_state CATCHER_RUNNING ;; ret 1) s
        | _ => internal_error 148 "bad state" s
        end
    | CATCHER_RUNNING =>
        match action with
        | CATCH_ITER =>
            (* No error/quit has occured.  Just clean up.  *)
            (catcher_pop ;; ret 0) s
        | CATCH_ITER_1 => (set_catcher_state CATCHER_RUNNING_1 ;; ret 1) s
        | CATCH_THROWING => (set_catcher_state CATCHER_ABORTING ;; ret 1) s
        end
    | CATCHER_RUNNING_1 =>
        match action with
        | CATCH_ITER =>
            (* The did a "break" from the inner while loop.  *)
            (catcher_pop ;; ret 0) s
        | CATCH_ITER_1 => (set_catcher_state CATCHER_RUNNING ;; ret 0) s
        | CATCH_THROWING => (set_catcher_state CATCHER_ABORTING ;; ret 1) s
        end
    | CATCHER_ABORTING =>
        match action with
        | CATCH_ITER =>
            (exception <- load (exception_ptr c) ;;
             if Z.land (mask c) (RETURN_MASK (reason exception)) =? 0
             then
               (* The caller didn't request that the event be caught,
                  relay the event to the next containing
                  catch_errors(). *)
               (catcher_pop ;; relay exception)
             else
               (* Exit normally if this catcher can handle this
                  exception.  The caller analyses the func return
                  values.  *)
               (catcher_pop ;; ret 0)) s
        | _ => internal_error 205 "bad state" s
        end
    end
  end.

(** [throw_exception]: [NORETURN], so its outcome has any type.  The state
    machine is entered with [CATCH_THROWING], an action under which it
    never relays (lemma [throw_exception_unfold]). *)
Definition throw_exception {A} (exception : exception) : M A :=
  modify (set_quit_flag 0) ;;
  modify (set_immediate_quit 0) ;;
  call Call_bpstat_clear_actions ;;  (* Clear queued breakpoint commands *)
  call Call_disable_current_display ;;
  do_cleanups_ALL ;;
  (fun s => if target_can_async_p s && (target_executing s =? 0)
            then call Call_do_exec_cleanups s else ret tt s) ;;
  (fun s => if sync_execution s =? 0
            then ret tt s else call Call_do_exec_error_cleanups s) ;;
  catcher_state_machine_with (fun _ _ => OutOfFuel) CATCH_THROWING ;;
  (fun s =>
     match current_catcher s with
     | [] => Undefined NullCatcher s
     | c :: _ =>
         (store (exception_ptr c) exception ;;
          SIGLONGJMP (buf c) (reason exception)) s
     end).

(** [catcher_state_machine] *)
Definition catcher_state_machine (action : catcher_action) : M Z :=
  catcher_state_machine_with (fun e => throw_exception e) action.

(** [throw_reason] *)
Definition throw_reason {A} (r : Z) : M A :=
  (* memset (&exception, 0, sizeof exception); exception.reason = reason; *)
  let exception := {| reason := r; error := 0; message := None |} in
  if r =? RETURN_QUIT then throw_exception exception
  else if r =? RETURN_ERROR then
    throw_exception
      {| reason := r; error := GENERIC_ERROR; message := None |}
  else internal_error 256 "bad switch".

(** The calls of a list, in order. *)
Fixpoint calls (es : list event) : M unit :=
  match es with
  | [] => ret tt
  | e :: es' => call e ;; calls es'
  end.

Definition newline : Ascii.ascii := Ascii.ascii_of_nat 10.

(** [print_flush] *)
Definition print_flush : M unit :=
  (fun s => if deprecated_error_begin_hook s
            then call Call_deprecated_error_begin_hook s else ret tt s) ;;
  call Call_target_terminal_ours ;;
  call (Call_wrap_here "") ;;  (* Force out any buffered output *)
  call (Call_gdb_flush gdb_stdout) ;;
  call Call_annotate_error_begin.

(** The line loop of [print_exception]: [start] is the text from the C
    pointer [start] up to the character under inspection, [rest] what
    [strchr] has still to search.  A line that ends in a newline goes to
    [ui_file_write] with its newline, the text after the last newline to
    [fputs_filtered]. *)
Fixpoint print_exception_lines (file : ui_file) (start rest : string)
    : list event :=
  match rest with
  | EmptyString => [Call_fputs_filtered start file]
  | String ch rest' =>
      if Ascii.eqb ch newline
      then Call_ui_file_write file (String.append start (String newline ""))
           :: print_exception_lines file "" rest'
      else print_exception_lines file
             (String.append start (String ch "")) rest'
  end.

(** [print_exception] *)
Definition print_exception (file : ui_file) (e : exception) : M unit :=
  match message e with
  | Some msg => calls (print_exception_lines file "" msg)
  | None => ret tt
  end ;;
  call (Call_fprintf_filtered file (String newline "")) ;;
  (* Now append the annotation.  *)
  if reason e =? RETURN_QUIT then call Call_annotate_quit
  else if reason e =? RETURN_ERROR then
    (* Assume that these are all errors.  *)
    call Call_annotate_error
  else internal_error 304 "Bad switch.".

(** [e.reason < 0 && e.message != NULL] *)
Definition pending_with_message (e : exception) : bool :=
  (reason e <? 0) && match message e with Some _ => true | None => false end.

(** [exception_print] *)
Definition exception_print (file : ui_file) (e : exception) : M unit :=
  if pending_with_message e
  then print_flush ;; print_exception file e
  else ret tt.

(** [exception_fprintf] *)
Definition exception_fprintf (file : ui_file) (e : exception)
    (prefix : string) (args : list string) : M unit :=
  if pending_with_message e
  then
    print_flush ;;
    (* Print the prefix.  *)
    call (Call_vfprintf_filtered file prefix args) ;;
    print_exception file e
  else ret tt.

(** [print_any_exception] *)
Definition print_any_exception (file : ui_file) (prefix : option string)
    (e : exception) : M unit :=
  if pending_with_message e
  then
    call Call_target_terminal_ours ;;
    call (Call_wrap_here "") ;;  (* Force out any buffered output *)
    call (Call_gdb_flush gdb_stdout) ;;
    call Call_annotate_error_begin ;;
    (* Print the prefix.  *)
    match prefix with
    | Some (String ch rest) => call (Call_fputs_filtered (String ch rest) file)
    | _ => ret tt
    end ;;
    print_exception file e
  else ret tt.

(** What [xstrvprintf (fmt, ap)] makes once [last_message] has been
    released: the formatted text, and nothing when the format or an
    argument points into the released buffer. *)
Definition formatted (fmt : c_str) (ap : list c_str) : option string :=
  match fmt, va_texts ap with
  | Str f, Some texts => Some (xstrvprintf f texts)
  | _, _ => None
  end.

(** [xfree (last_message)] followed by [xstrvprintf (fmt, ap)]: the old
    buffer is gone when the format and the arguments are read.  (While
    [last_message] is [NULL], a pointer taken from it is null, and reading
    it is undefined as well.) *)
Definition release_and_format (fmt : c_str) (ap : list c_str) : M string :=
  fun s =>
    match formatted fmt ap with
    | Some text => Returns text s
    | None => Undefined FreedBuffer s
    end.

(** [throw_it] *)
Definition throw_it {A} (r : Z) (err : Z) (fmt : c_str) (ap : list c_str)
    : M A :=
  (* Save the message.  *)
  text <- release_and_format fmt ap ;;
  modify (set_last_message (Some text)) ;;
  (* Create the exception.  *)
  e <- (fun s => Returns
          {| reason := r; error := err; message := last_message s |} s) ;;
  (* Throw the exception.  *)
  throw_exception e.

(** [throw_verror] *)
Definition throw_verror {A} (err : Z) (fmt : c_str) (ap : list c_str)
    : M A :=
  throw_it RETURN_ERROR err fmt ap.

(** [throw_vfatal] *)
Definition throw_vfatal {A} (fmt : c_str) (ap : list c_str) : M A :=
  throw_it RETURN_QUIT NO_ERROR fmt ap.

(** [throw_error] *)
Definition throw_error {A} (err : Z) (fmt : c_str) (args : list c_str)
    : M A :=
  throw_it RETURN_ERROR err fmt args.

(** The protected operations: [catch_exceptions_ftype],
    [catch_exception_ftype], [catch_errors_ftype] and
    [catch_command_errors_ftype].  [void *] arguments are opaque. *)
Definition catch_exceptions_ftype : Type := ui_out -> Z -> M Z.
Definition catch_exception_ftype : Type := ui_out -> Z -> M unit.
Definition catch_errors_ftype : Type := Z -> M Z.
Definition catch_command_errors_ftype : Type := option string -> Z -> M unit.

(** The loop the four catch primitives share:

    [for (SIGSETJMP (catch[0]); catcher_state_machine (CATCH_ITER);)
       val = body;]

    [SIGSETJMP] makes the loop the landing place of every [siglongjmp] to
    that buffer: control then continues with the loop condition, [val] (a
    [volatile] local) keeping its value.  A jump to another buffer passes
    through.  Each evaluation of the condition takes one unit of fuel. *)
Fixpoint catch_loop {V} (fuel : nat) (catch : addr) (body : M V) (val : V)
    (s : gdb) : result V :=
  match fuel with
  | O => OutOfFuel
  | S fuel' =>
      match catcher_state_machine CATCH_ITER s with
      | Returns again s1 =>
          if again =? 0 then Returns val s1
          else
            match body s1 with
            | Returns v s2 => catch_loop fuel' catch body v s2
            | LongJmp target r s2 =>
                if Nat.eqb target catch
                then catch_loop fuel' catch body val s2
                else LongJmp target r s2
            | InternalError l msg s2 => InternalError l msg s2
            | Undefined w s2 => Undefined w s2
            | OutOfFuel => OutOfFuel
            end
      | LongJmp target r s1 =>
          if Nat.eqb target catch
          then catch_loop fuel' catch body val s1
          else LongJmp target r s1
      | InternalError l msg s1 => InternalError l msg s1
      | Undefined w s1 => Undefined w s1
      | OutOfFuel => OutOfFuel
      end
  end.

(** [catch_exception] *)
Definition catch_exception (fuel : nat) (func_uiout : ui_out)
    (func : catch_exception_ftype) (func_args : Z) (mask : Z)
    : M exception :=
  exception <- alloca ;;
  catch <- catcher_init func_uiout exception mask ;;
  catch_loop fuel catch (func func_uiout func_args) tt ;;
  e <- load exception ;;
  ret e.

(** [catch_exceptions_with_msg].  [gdberrmsg] is a [char **]: [None] for
    [NULL]. *)
Definition catch_exceptions_with_msg (fuel : nat) (func_uiout : ui_out)
    (func : catch_exceptions_ftype) (func_args : Z)
    (gdberrmsg : option addr) (mask : Z) : M Z :=
  exception <- alloca ;;
  catch <- catcher_init func_uiout exception mask ;;
  val <- catch_loop fuel catch (func func_uiout func_args) 0 ;;
  e <- load exception ;;
  print_any_exception gdb_stderr None e ;;
  gdb_assert 467 "val >= 0" (0 <=? val) ;;
  gdb_assert 468 "exception.reason <= 0" (reason e <=? 0) ;;
  if reason e <? 0 then
    (* If caller wants a copy of the low-level error message, make
       one.  This is used in the case of a silent error whereby the
       caller may optionally want to issue the message.  *)
    match gdberrmsg with
    | Some p =>
        match message e with
        | Some text => copy <- xstrdup text ;; store_char_ptr p (Block copy)
        | None => store_char_ptr p NULL
        end
    | None => ret tt
    end ;;
    ret (reason e)
  else ret val.

(** [catch_exceptions] *)
Definition catch_exceptions (fuel : nat) (func_uiout : ui_out)
    (func : catch_exceptions_ftype) (func_args : Z) (mask : Z) : M Z :=
  catch_exceptions_with_msg fuel func_uiout func func_args None mask.

(** [catch_errors] *)
Definition catch_errors (fuel : nat) (func : catch_errors_ftype)
    (func_args : Z) (errstring : option string) (mask : Z) : M Z :=
  exception <- alloca ;;
  func_uiout <- (fun s => Returns (uiout s) s) ;;
  catch <- catcher_init func_uiout exception mask ;;
  val <- catch_loop fuel catch (func func_args) 0 ;;
  e <- load exception ;;
  print_any_exception gdb_stderr errstring e ;;
  if reason e =? 0 then ret val else ret 0.

(** [catch_command_errors] *)
Definition catch_command_errors (fuel : nat)
    (command : catch_command_errors_ftype) (arg : option string)
    (from_tty : Z) (mask : Z) : M Z :=
  e <- alloca ;;
  func_uiout <- (fun s => Returns (uiout s) s) ;;
  catch <- catcher_init func_uiout e mask ;;
  catch_loop fuel catch (command arg from_tty) tt ;;
  e' <- load e ;;
  print_any_exception gdb_stderr None e' ;;
  if reason e' <? 0 then ret 0 else ret 1.

End ExceptionsC.

(** * Verification *)

(** ** States and outcomes *)

(** A frame is running the protected code. *)
Definition running (c : catcher) : Prop :=
  state c = CATCHER_RUNNING \/ state c = CATCHER_RUNNING_1.

(** What [catcher_pop] leaves when the popped frame is [c] and the frames
    under it are [prev]. *)
Definition popped (c : catcher) (prev : list catcher) (s : gdb) : gdb :=
  set_uiout (saved_uiout c)
    (set_cleanup_chain (saved_cleanup_chain c) (set_current_catcher prev s)).

(** The state [throw_exception] reaches before it enters the state
    machine. *)
Definition throw_prelude (s : gdb) : gdb :=
  let s1 :=
    log (Call_do_cleanups (cleanup_chain s))
      (set_cleanup_chain []
         (log Call_disable_current_display
            (log Call_bpstat_clear_actions
               (set_immediate_quit 0 (set_quit_flag 0 s))))) in
  let s2 :=
    if target_can_async_p s && (target_executing s =? 0)
    then log Call_do_exec_cleanups s1 else s1 in
  if sync_execution s =? 0 then s2 else log Call_do_exec_error_cleanups s2.

(** The calls [throw_exception] makes before it enters the state machine. *)
Definition throw_calls (s : gdb) : list event :=
  [Call_bpstat_clear_actions; Call_disable_current_display;
   Call_do_cleanups (cleanup_chain s)]
  ++ (if target_can_async_p s && (target_executing s =? 0)
      then [Call_do_exec_cleanups] else [])
  ++ (if sync_execution s =? 0 then [] else [Call_do_exec_error_cleanups]).

(** The outcome of a function that does not return, at another type. *)
Definition absurd {A} (r : result Empty_set) : result A :=
  match r with
  | Returns a _ => match a with end
  | LongJmp t v s => LongJmp t v s
  | InternalError l msg s => InternalError l msg s
  | Undefined w s => Undefined w s
  | OutOfFuel => OutOfFuel
  end.

(** Every frame and every exception slot of the stack is an allocated
    object. *)
Definition wf (s : gdb) : Prop :=
  Forall (fun c => (buf c < brk s)%nat /\ (exception_ptr c < brk s)%nat)
    (current_catcher s).

(** How a piece of protected code leaves the catcher stack and the exception
    slots, when it was started in [s].  It returns with the stack as it found
    it and the slots that existed untouched; or a jump is in flight to the
    buffer of the frame that was on top, that frame marked aborting and the
    exception in its slot; or the process is gone.  This is what code does
    that reaches the stack through the throw and catch entry points only
    (lemmas [well_nested_throw_exception] to
    [well_nested_catch_command_errors]). *)
Definition outcome_ok {A} (s : gdb) (r : result A) : Prop :=
  match r with
  | Returns _ s' =>
      current_catcher s' = current_catcher s
      /\ (brk s <= brk s')%nat
      /\ (forall p, (p < brk s)%nat -> mem s' !! p = mem s !! p)
  | LongJmp target val s' =>
      exists c prev e,
        current_catcher s = c :: prev
        /\ running c
        /\ current_catcher s' = set_state CATCHER_ABORTING c :: prev
        /\ target = buf c
        /\ val = reason e
        /\ mem s' !! exception_ptr c = Some e
        /\ (brk s <= brk s')%nat
        /\ (forall p, (p < brk s)%nat -> p <> exception_ptr c ->
              mem s' !! p = mem s !! p)
  | InternalError _ _ _ => True
  | Undefined _ _ => True
  | OutOfFuel => False
  end.

Definition well_nested {A} (m : M A) : Prop :=
  forall s, wf s -> outcome_ok s (m s).

(** The state [s2] in which the protected operation ended, with the catcher
    stack, [uiout] and the cleanup chain of [s] put back. *)
Definition restored (s s2 : gdb) : gdb :=
  set_uiout (uiout s)
    (set_cleanup_chain (cleanup_chain s)
       (set_current_catcher (current_catcher s) s2)).

(** [s] with another log of calls. *)
Definition with_trace (tr : list event) (s : gdb) : gdb :=
  mk_gdb (current_catcher s) (uiout s) (cleanup_chain s) (quit_flag s)
    (immediate_quit s) (last_message s) (target_can_async_p s)
    (target_executing s) (sync_execution s) (deprecated_error_begin_hook s)
    (mem s) (char_mem s) (brk s) tr.

(** [s'] has the catcher stack, the exception slots, [uiout] and the
    cleanup chain of [s], and every address allocated in [s] is allocated
    in [s']. *)
Definition same_core (s s' : gdb) : Prop :=
  current_catcher s' = current_catcher s
  /\ mem s' = mem s
  /\ (brk s <= brk s')%nat
  /\ uiout s' = uiout s
  /\ cleanup_chain s' = cleanup_chain s.

(** Code that returns or ends in [internal_error], and leaves the catcher
    stack and what goes with it alone. *)
Definition quiet {A} (m : M A) : Prop :=
  forall s,
    match m s with
    | Returns _ s' => same_core s s'
    | InternalError _ _ _ => True
    | _ => False
    end.


(** What a catch primitive owes the catcher stack of its caller: when it
    returns, the stack is the one it was called with; when it relays, the
    jump goes to the frame that was on top, marked aborting by the throw,
    and nothing else in the stack has changed. *)
Definition stack_kept {A} (s : gdb) (r : result A) : Prop :=
  match r with
  | Returns _ s' => current_catcher s' = current_catcher s
  | LongJmp target _ s' =>
      exists c prev,
        current_catcher s = c :: prev
        /\ current_catcher s' = set_state CATCHER_ABORTING c :: prev
        /\ target = buf c
  | InternalError _ _ _ => True
  | Undefined _ _ => True
  | OutOfFuel => False
  end.

Section Vocabulary.

Context {H : exceptions_h}.

(** [mask & RETURN_MASK (exception.reason)] is not zero: a frame with this
    mask claims the exception. *)
Definition claims (mask : Z) (e : exception) : bool :=
  negb (Z.land mask (RETURN_MASK (reason e)) =? 0).

(** The state in which a catch primitive called in [s] starts its protected
    operation: the exception slot allocated and cleared, the frame pushed
    and running, [uiout] overridden, a new cleanup chain begun. *)
Definition entered (func_uiout : ui_out) (mask : Z) (s : gdb) : gdb :=
  mk_gdb
    ({| state := CATCHER_RUNNING; buf := S (brk s); exception_ptr := brk s;
        mask := mask; saved_uiout := uiout s;
        saved_cleanup_chain := cleanup_chain s |} :: current_catcher s)
    func_uiout [] (quit_flag s) (immediate_quit s) (last_message s)
    (target_can_async_p s) (target_executing s) (sync_execution s)
    (deprecated_error_begin_hook s)
    (<[brk s := exception_none]> (mem s))
    (char_mem s) (S (S (brk s))) (trace s).

(** A level of nesting: a call of one of the four catch primitives, with
    the arguments the caller chooses. *)
Inductive level : Type :=
| By_catch_exceptions_with_msg (func_uiout : ui_out) (func_args : Z)
    (gdberrmsg : option addr) (mask : Z)
| By_catch_exception (func_uiout : ui_out) (func_args : Z) (mask : Z)
| By_catch_errors (func_args : Z) (errstring : option string) (mask : Z)
| By_catch_command_errors (arg : option string) (from_tty : Z) (mask : Z).

Definition level_mask (l : level) : Z :=
  match l with
  | By_catch_exceptions_with_msg _ _ _ m => m
  | By_catch_exception _ _ m => m
  | By_catch_errors _ _ m => m
  | By_catch_command_errors _ _ m => m
  end.

(** A caller that protects [body] with the catch primitive of the level and
    hands on what the primitive returns (of the record [catch_exception]
    returns, its reason). *)
Definition run_level (fuel : nat) (l : level) (body : M Z) : M Z :=
  match l with
  | By_catch_exceptions_with_msg u a g m =>
      catch_exceptions_with_msg fuel u (fun _ _ => body) a g m
  | By_catch_exception u a m =>
      e <- catch_exception fuel u (fun _ _ => body ;; ret tt) a m ;;
      ret (reason e)
  | By_catch_errors a errstring m =>
      catch_errors fuel (fun _ => body) a errstring m
  | By_catch_command_errors arg from_tty m =>
      catch_command_errors fuel (fun _ _ => body ;; ret tt) arg from_tty m
  end.

(** What [run_level] returns when the level claims the exception [e]. *)
Definition claimed_value (l : level) (e : exception) : Z :=
  match l with
  | By_catch_exceptions_with_msg _ _ _ _ => reason e
  | By_catch_exception _ _ _ => reason e
  | By_catch_errors _ _ _ => 0
  | By_catch_command_errors _ _ _ => 0
  end.

(** Nested catch invocations, the outermost first, around [body]. *)
Fixpoint nest (fuel : nat) (ls : list level) (body : M Z) : M Z :=
  match ls with
  | [] => body
  | l :: ls' => run_level fuel l (nest fuel ls' body)
  end.

(** The [uiout] a level hands to [catcher_init]. *)
Definition level_uiout (l : level) (s : gdb) : ui_out :=
  match l with
  | By_catch_exceptions_with_msg u _ _ _ => u
  | By_catch_exception u _ _ => u
  | By_catch_errors _ _ _ => uiout s
  | By_catch_command_errors _ _ _ => uiout s
  end.

(** What a catch primitive owes [uiout] and the cleanup chain of its
    caller: when it returns they are those of the call; when it relays, the
    exception is thrown again from a state in which they, and the stack, are
    those of the call. *)
Definition sink_and_cleanups_kept {A} (s : gdb) (r : result A) : Prop :=
  match r with
  | Returns _ s' => uiout s' = uiout s /\ cleanup_chain s' = cleanup_chain s
  | LongJmp _ _ _ =>
      exists e s_pop,
        current_catcher s_pop = current_catcher s
        /\ uiout s_pop = uiout s
        /\ cleanup_chain s_pop = cleanup_chain s
        /\ r = throw_exception e s_pop
  | InternalError _ _ _ => True
  | Undefined _ _ => True
  | OutOfFuel => False
  end.

End Vocabulary.

(** ** Worked examples *)

(** Modelled from the spec: [exceptions.h] is not among the sources.  The spec has
    reasons as integers, "0 = none, negative = abnormal", with at least a
    quit and an error reason, and the mask as a "bitmask of reason codes";
    this instance, used by the examples only, takes two negative reasons,
    one mask bit per reason, and a formatter for formats without
    directives. *)
Definition gdb_header : exceptions_h :=
  {| RETURN_QUIT := -2;
     RETURN_ERROR := -1;
     RETURN_MASK := fun r => Z.shiftl 1 (- r);
     NO_ERROR := 0;
     GENERIC_ERROR := 1;
     xstrvprintf := fun fmt _ => fmt |}.

Definition RETURN_MASK_QUIT : Z := 4.
Definition RETURN_MASK_ERROR : Z := 2.
Definition RETURN_MASK_ALL : Z := 6.

(** A debugger with no catcher installed, [uiout] 7, two pending cleanups
    and both quit flags raised. *)
Definition idle : gdb :=
  {| current_catcher := []; uiout := 7; cleanup_chain := [100; 101];
     quit_flag := 1; immediate_quit := 1; last_message := None;
     target_can_async_p := false; target_executing := 0;
     sync_execution := 0; deprecated_error_begin_hook := false;
     mem := ∅; char_mem := ∅; brk := 0; trace := [] |}.

(** A frame as a catch primitive with mask [m] leaves it while its
    protected operation runs, in state [st]. *)
Definition frame (st : catcher_state) (m : Z) : catcher :=
  {| state := st; buf := 1; exception_ptr := 0; mask := m;
     saved_uiout := 7; saved_cleanup_chain := [100; 101] |}.

(** The debugger inside one catch primitive whose frame is in state [st]:
    [uiout] overridden to 9, one cleanup registered since. *)
Definition inside (st : catcher_state) (m : Z) (slot : exception) : gdb :=
  {| current_catcher := [frame st m]; uiout := 9; cleanup_chain := [102];
     quit_flag := 1; immediate_quit := 1; last_message := None;
     target_can_async_p := false; target_executing := 0;
     sync_execution := 0; deprecated_error_begin_hook := false;
     mem := {[ 0%nat := slot ]}; char_mem := ∅; brk := 2; trace := [] |}.

(** ** Vocabulary for the rest of the file *)

(** The text a call puts on a file: the argument of [fputs_filtered] and of
    [ui_file_write]. *)
Definition written (ev : event) : string :=
  match ev with
  | Call_fputs_filtered text _ => text
  | Call_ui_file_write _ text => text
  | _ => ""
  end.

Fixpoint all_written (es : list event) : string :=
  match es with
  | [] => ""
  | ev :: es' => String.append (written ev) (all_written es')
  end.

(** No newline in the text. *)
Fixpoint no_newline (text : string) : bool :=
  match text with
  | EmptyString => true
  | String ch rest => negb (Ascii.eqb ch newline) && no_newline rest
  end.

(** A line: text without a newline, then one newline. *)
Definition is_line (text : string) : Prop :=
  exists body,
    text = String.append body (String newline "") /\ no_newline body = true.

(** The four calls that force out pending output and open the error
    annotation. *)
Definition flush_calls : list event :=
  [Call_target_terminal_ours; Call_wrap_here ""; Call_gdb_flush gdb_stdout;
   Call_annotate_error_begin].

(** The calls [print_exception] makes for the message: its lines, then a
    newline. *)
Definition message_calls (file : ui_file) (e : exception) : list event :=
  match message e with
  | Some msg => print_exception_lines file "" msg
  | None => []
  end ++ [Call_fprintf_filtered file (String newline "")].

(** The state an outcome carries. *)
Definition outcome_state {A} (r : result A) : option gdb :=
  match r with
  | Returns _ s => Some s
  | LongJmp _ _ s => Some s
  | InternalError _ _ s => Some s
  | Undefined _ s => Some s
  | OutOfFuel => None
  end.

Section MoreVocabulary.

Context {H : exceptions_h}.

(** The reason is one [print_exception] has an annotation for. *)
Definition has_annotation (e : exception) : bool :=
  (reason e =? RETURN_QUIT) || (reason e =? RETURN_ERROR).

(** The annotation [print_exception] ends with. *)
Definition annotation (e : exception) : event :=
  if reason e =? RETURN_QUIT then Call_annotate_quit else Call_annotate_error.

(** Frames pushed one after the other, each with the [uiout], the slot and
    the mask of a triple. *)
Fixpoint push_all (frames : list (ui_out * addr * Z)) : M unit :=
  match frames with
  | [] => ret tt
  | (u, p, m) :: frames' => catcher_init u p m ;; push_all frames'
  end.

(** [n] frames popped one after the other. *)
Fixpoint pop_times (n : nat) : M unit :=
  match n with
  | O => ret tt
  | S n' => catcher_pop ;; pop_times n'
  end.

End MoreVocabulary.

Section Verification.

Context {H : exceptions_h}.

Lemma throw_prelude_catchers s :
  current_catcher (throw_prelude s) = current_catcher s.
Proof. unfold throw_prelude. repeat case_match; reflexivity. Qed.

Lemma throw_prelude_uiout s : uiout (throw_prelude s) = uiout s.
Proof. unfold throw_prelude. repeat case_match; reflexivity. Qed.

Lemma throw_prelude_mem s : mem (throw_prelude s) = mem s.
Proof. unfold throw_prelude. repeat case_match; reflexivity. Qed.

Lemma throw_prelude_char_mem s : char_mem (throw_prelude s) = char_mem s.
Proof. unfold throw_prelude. repeat case_match; reflexivity. Qed.

Lemma throw_prelude_brk s : brk (throw_prelude s) = brk s.
Proof. unfold throw_prelude. repeat case_match; reflexivity. Qed.

Lemma throw_prelude_cleanup_chain s : cleanup_chain (throw_prelude s) = [].
Proof. unfold throw_prelude. repeat case_match; reflexivity. Qed.


Lemma throw_prelude_trace s :
  trace (throw_prelude s) = trace s ++ throw_calls s.
Proof.
  unfold throw_prelude, throw_calls.
  repeat case_match; cbn [trace log set_cleanup_chain];
    rewrite <- ?app_assoc; reflexivity.
Qed.

(** Under [CATCH_THROWING] the state machine never relays: the parameter
    that stands for the recursive call is not used. *)
Lemma catcher_state_machine_with_throwing relay1 relay2 s :
  catcher_state_machine_with relay1 CATCH_THROWING s
  = catcher_state_machine_with relay2 CATCH_THROWING s.
Proof.
  unfold catcher_state_machine_with.
  destruct (current_catcher s) as [|c prev]; [reflexivity|].
  destruct (state c); reflexivity.
Qed.

(** The text of [throw_exception], with the call of the state machine as
    the source has it. *)
Lemma throw_exception_unfold {A} (e : exception) (s : gdb) :
  @throw_exception H A e s
  = (_ <- catcher_state_machine CATCH_THROWING ;;
     (fun s' =>
        match current_catcher s' with
        | [] => Undefined NullCatcher s'
        | c :: _ =>
            (store (exception_ptr c) e ;;
             SIGLONGJMP (buf c) (reason e)) s'
        end)) (throw_prelude s).
Proof.
  unfold throw_exception, catcher_state_machine, throw_prelude.
  destruct s. unfold bind, modify, call, do_cleanups_ALL, ret. simpl.
  destruct (target_can_async_p0 && (target_executing0 =? 0)); simpl;
    destruct (sync_execution0 =? 0); simpl;
    rewrite (catcher_state_machine_with_throwing (fun _ _ => OutOfFuel)
               (fun e0 => throw_exception e0)); reflexivity.
Qed.

(** With a running frame on top, [throw_exception] marks it aborting,
    stores the exception through its pointer and jumps to its buffer. *)
Lemma throw_exception_running {A} e s c prev :
  current_catcher s = c :: prev -> running c ->
  @throw_exception H A e s
  = LongJmp (buf c) (reason e)
      (set_mem (<[exception_ptr c := e]> (mem s))
         (set_current_catcher (set_state CATCHER_ABORTING c :: prev)
            (throw_prelude s))).
Proof.
  intros Hs Hrun. rewrite throw_exception_unfold.
  unfold bind, catcher_state_machine, catcher_state_machine_with.
  rewrite throw_prelude_catchers, Hs.
  unfold set_catcher_state, bind, ret, store, modify, SIGLONGJMP.
  rewrite throw_prelude_catchers, Hs.
  destruct Hrun as [-> | ->]; cbn; rewrite throw_prelude_mem; reflexivity.
Qed.

(** With no frame at all, [current_catcher->state] dereferences [NULL]. *)
Lemma throw_exception_empty {A} e s :
  current_catcher s = [] ->
  @throw_exception H A e s = Undefined NullCatcher (throw_prelude s).
Proof.
  intros Hs. rewrite throw_exception_unfold.
  unfold bind, catcher_state_machine, catcher_state_machine_with.
  rewrite throw_prelude_catchers, Hs. reflexivity.
Qed.

(** With a frame on top that is not running, the state machine refuses
    [CATCH_THROWING]. *)
Lemma throw_exception_not_running {A} e s c prev :
  current_catcher s = c :: prev -> ~ running c ->
  exists line,
    @throw_exception H A e s = InternalError line "bad state" (throw_prelude s).
Proof.
  intros Hs Hrun. rewrite throw_exception_unfold.
  unfold bind, catcher_state_machine, catcher_state_machine_with.
  rewrite throw_prelude_catchers, Hs. unfold running in Hrun.
  destruct (state c); try (exfalso; apply Hrun; auto; fail);
    eexists; reflexivity.
Qed.

Lemma running_dec c : running c \/ ~ running c.
Proof.
  unfold running. destruct (state c); auto; right; intros [?|?]; discriminate.
Qed.

(** [throw_exception] has one outcome whatever type its caller expects. *)
Lemma throw_exception_absurd {A} e s :
  @throw_exception H A e s = absurd (@throw_exception H Empty_set e s).
Proof.
  rewrite !throw_exception_unfold. unfold bind.
  destruct (catcher_state_machine CATCH_THROWING (throw_prelude s));
    cbn; try reflexivity.
  destruct (current_catcher s0); reflexivity.
Qed.

Lemma throw_exception_no_return {A} e s (a : A) s' :
  @throw_exception H A e s <> Returns a s'.
Proof.
  rewrite throw_exception_absurd.
  destruct (throw_exception e s) as [[]| | | |]; discriminate.
Qed.

(** ** The state machine *)

Lemma csm_created_iter s c prev :
  current_catcher s = c :: prev -> state c = CATCHER_CREATED ->
  catcher_state_machine CATCH_ITER s
  = Returns 1 (set_current_catcher (set_state CATCHER_RUNNING c :: prev) s).
Proof.
  intros Hs Hc. unfold catcher_state_machine, catcher_state_machine_with.
  rewrite Hs, Hc. unfold bind, set_catcher_state, ret. rewrite Hs. reflexivity.
Qed.

Lemma csm_created_other s c prev action :
  current_catcher s = c :: prev -> state c = CATCHER_CREATED ->
  action <> CATCH_ITER ->
  catcher_state_machine action s = InternalError 148 "bad state" s.
Proof.
  intros Hs Hc Ha. unfold catcher_state_machine, catcher_state_machine_with.
  rewrite Hs, Hc. destruct action; [congruence | reflexivity | reflexivity].
Qed.

Lemma catcher_pop_eq s c prev :
  current_catcher s = c :: prev -> catcher_pop s = Returns tt (popped c prev s).
Proof. intros Hs. unfold catcher_pop. rewrite Hs. reflexivity. Qed.

Lemma csm_running_iter s c prev :
  current_catcher s = c :: prev -> running c ->
  catcher_state_machine CATCH_ITER s = Returns 0 (popped c prev s).
Proof.
  intros Hs Hc. unfold catcher_state_machine, catcher_state_machine_with.
  rewrite Hs. unfold bind. rewrite (catcher_pop_eq _ _ _ Hs).
  destruct Hc as [-> | ->]; reflexivity.
Qed.

Lemma csm_set_state s c prev action st st' again :
  current_catcher s = c :: prev -> state c = st ->
  match st, action with
  | CATCHER_RUNNING, CATCH_ITER_1 => st' = CATCHER_RUNNING_1 /\ again = 1
  | CATCHER_RUNNING, CATCH_THROWING => st' = CATCHER_ABORTING /\ again = 1
  | CATCHER_RUNNING_1, CATCH_ITER_1 => st' = CATCHER_RUNNING /\ again = 0
  | CATCHER_RUNNING_1, CATCH_THROWING => st' = CATCHER_ABORTING /\ again = 1
  | _, _ => False
  end ->
  catcher_state_machine action s
  = Returns again (set_current_catcher (set_state st' c :: prev) s).
Proof.
  intros Hs Hc Ht. unfold catcher_state_machine, catcher_state_machine_with.
  rewrite Hs, Hc. unfold bind, set_catcher_state, ret. rewrite Hs.
  destruct st, action; try contradiction; destruct Ht as [-> ->]; reflexivity.
Qed.

Lemma csm_aborting_iter s c prev e :
  current_catcher s = c :: prev -> state c = CATCHER_ABORTING ->
  mem s !! exception_ptr c = Some e ->
  catcher_state_machine CATCH_ITER s
  = if claims (mask c) e then Returns 0 (popped c prev s)
    else throw_exception e (popped c prev s).
Proof.
  intros Hs Hc He. unfold catcher_state_machine, catcher_state_machine_with.
  rewrite Hs, Hc. unfold bind, load. rewrite He. unfold claims.
  destruct (Z.land (mask c) (RETURN_MASK (reason e)) =? 0); cbn [negb];
    rewrite (catcher_pop_eq _ _ _ Hs); reflexivity.
Qed.

Lemma csm_aborting_other s c prev action :
  current_catcher s = c :: prev -> state c = CATCHER_ABORTING ->
  action <> CATCH_ITER ->
  catcher_state_machine action s = InternalError 205 "bad state" s.
Proof.
  intros Hs Hc Ha. unfold catcher_state_machine, catcher_state_machine_with.
  rewrite Hs, Hc. destruct action; [congruence | reflexivity | reflexivity].
Qed.

Lemma popped_set_state st c prev s :
  popped (set_state st c) prev s = popped c prev s.
Proof. reflexivity. Qed.

(** ** The loop of the catch primitives *)

(** A jump that [throw_exception] starts goes to the frame on top. *)
Lemma throw_exception_target {A} e s t v s' :
  @throw_exception H A e s = LongJmp t v s' ->
  exists c prev, current_catcher s = c :: prev /\ t = buf c.
Proof.
  destruct (current_catcher s) as [|c prev] eqn:Hs.
  - rewrite throw_exception_empty by assumption. discriminate.
  - destruct (running_dec c) as [Hr|Hr].
    + rewrite (throw_exception_running _ _ _ _ Hs Hr). intros [= <- _ _].
      eauto.
    + destruct (throw_exception_not_running (A:=A) e s c prev Hs Hr) as [l ->].
      discriminate.
Qed.

(** The loop, started on a frame that [catcher_init] has just pushed, around
    a body that keeps to the stack discipline: the body runs once; when it
    returns the frame is popped and the loop ends with the body's value;
    when it throws, the jump lands in the loop, and the frame is popped and
    either claims the exception or relays it. *)
Lemma catch_loop_spec {V} n catch (body : M V) val s c prev :
  current_catcher s = c :: prev ->
  state c = CATCHER_CREATED ->
  buf c = catch ->
  match prev with c' :: _ => buf c' <> catch | [] => True end ->
  outcome_ok (set_current_catcher (set_state CATCHER_RUNNING c :: prev) s)
    (body (set_current_catcher (set_state CATCHER_RUNNING c :: prev) s)) ->
  catch_loop (S (S n)) catch body val s
  = match body (set_current_catcher (set_state CATCHER_RUNNING c :: prev) s)
    with
    | Returns v s2 => Returns v (popped c prev s2)
    | LongJmp _ _ s2 =>
        match mem s2 !! exception_ptr c with
        | Some e =>
            if claims (mask c) e then Returns val (popped c prev s2)
            else throw_exception e (popped c prev s2)
        | None => Undefined WildPointer s2
        end
    | InternalError l msg s2 => InternalError l msg s2
    | Undefined w s2 => Undefined w s2
    | OutOfFuel => OutOfFuel
    end.
Proof.
  intros Hs Hc Hbuf Hprev Hok.
  cbn [catch_loop]. rewrite (csm_created_iter _ _ _ Hs Hc).
  change (1 =? 0) with false. cbv iota.
  set (s1 := set_current_catcher (set_state CATCHER_RUNNING c :: prev) s) in *.
  destruct (body s1) as [v s2|t r s2|l msg s2|w s2|] eqn:Hbody;
    try reflexivity.
  - (* the body returned *)
    destruct Hok as (Hst & _ & _). cbn in Hst.
    rewrite (csm_running_iter s2 (set_state CATCHER_RUNNING c) prev Hst)
      by (left; reflexivity).
    reflexivity.
  - (* the body threw *)
    destruct Hok as (c0 & prev0 & e & Hs1 & Hrun & Hs2 & -> & -> & He & _).
    cbn in Hs1. injection Hs1 as <- <-. cbn [buf set_state] in *.
    rewrite Hbuf, Nat.eqb_refl. cbn [exception_ptr set_state] in He.
    rewrite He.
    rewrite (csm_aborting_iter s2 _ prev e Hs2 eq_refl He).
    cbn [mask set_state]. rewrite !popped_set_state.
    destruct (claims (mask c) e); [reflexivity|].
    rewrite (throw_exception_absurd (A:=Z)), (throw_exception_absurd (A:=V)).
    destruct (throw_exception e (popped c prev s2)) as [[]|t r s3|l msg s3|w s3|]
      eqn:Hthrow; cbn [absurd]; try reflexivity.
    apply throw_exception_target in Hthrow.
    destruct Hthrow as (c' & prev' & Hp & ->). cbn in Hp. subst prev.
    destruct (Nat.eqb_spec (buf c') catch) as [E|E]; [contradiction|].
    reflexivity.
Qed.


(** What follows a call that does not return is not run. *)
Lemma bind_absurd {A B} (r : result Empty_set) (k : A -> M B) :
  match absurd r with
  | Returns a s' => k a s'
  | LongJmp b v s' => LongJmp b v s'
  | InternalError l msg s' => InternalError l msg s'
  | Undefined w s' => Undefined w s'
  | OutOfFuel => OutOfFuel
  end = absurd r.
Proof. destruct r as [[]| | | |]; reflexivity. Qed.

Lemma wf_head s c prev catch :
  wf s -> current_catcher s = c :: prev -> (brk s <= catch)%nat ->
  buf c <> catch.
Proof.
  unfold wf. intros Hwf Hs Hle. rewrite Hs in Hwf.
  inversion Hwf as [|? ? [Hb _] _]; subst. lia.
Qed.

(** The opening all four catch primitives share: the slot, the frame, the
    loop.  [k] is what the primitive does after the loop with the address of
    its [exception] local and with [val]. *)
Lemma catch_frame {V B} fuel func_uiout m (body : M V) val0
    (k : addr -> V -> M B) s :
  (2 <= fuel)%nat -> wf s ->
  outcome_ok (entered func_uiout m s) (body (entered func_uiout m s)) ->
  (exception <- alloca ;;
   catch <- catcher_init func_uiout exception m ;;
   val <- catch_loop fuel catch body val0 ;;
   k exception val) s
  = match body (entered func_uiout m s) with
    | Returns v s2 => k (brk s) v (restored s s2)
    | LongJmp _ _ s2 =>
        match mem s2 !! brk s with
        | Some e =>
            if claims m e then k (brk s) val0 (restored s s2)
            else throw_exception e (restored s s2)
        | None => Undefined WildPointer s2
        end
    | InternalError l msg s2 => InternalError l msg s2
    | Undefined w s2 => Undefined w s2
    | OutOfFuel => OutOfFuel
    end.
Proof.
  intros Hfuel Hwf Hok.
  destruct fuel as [|[|n]]; [lia | lia |].
  unfold bind at 1. unfold alloca.
  unfold bind at 1. unfold catcher_init, XZALLOC, store, save_cleanups, modify,
    bind, ret.
  cbn [brk set_brk mem set_mem uiout set_uiout cleanup_chain set_cleanup_chain
       current_catcher set_current_catcher].
  match goal with
  | |- context [catch_loop _ ?catch body val0 ?s1] =>
      pose proof (catch_loop_spec n catch body val0 s1
                    {| state := CATCHER_CREATED; buf := S (brk s);
                       exception_ptr := brk s; mask := m;
                       saved_uiout := uiout s;
                       saved_cleanup_chain := cleanup_chain s |}
                    (current_catcher s) eq_refl eq_refl eq_refl) as Hspec
  end.
  cbn [set_state state buf exception_ptr mask saved_uiout
       saved_cleanup_chain] in Hspec.
  change (set_current_catcher (set_state CATCHER_RUNNING _ :: _) _)
    with (entered func_uiout m s) in Hspec.
  rewrite Hspec; clear Hspec; [| | exact Hok].
  - destruct (body (entered func_uiout m s)) as [v s2|t r s2|l msg s2|w s2|];
      try reflexivity.
    destruct (mem s2 !! brk s) as [e|]; [|reflexivity].
    destruct (claims m e); [reflexivity|].
    change (popped _ (current_catcher s) s2) with (restored s s2).
    rewrite (throw_exception_absurd (A:=V)), (throw_exception_absurd (A:=B)).
    apply bind_absurd.
  - destruct (current_catcher s) as [|c' prev'] eqn:Hs; [exact I|].
    eapply wf_head; eauto.
Qed.


(** ** The stack discipline *)

Lemma wf_entered u m s : wf s -> wf (entered u m s).
Proof.
  unfold wf, entered. cbn. intros Hwf. constructor; [cbn; lia|].
  eapply Forall_impl; [exact Hwf|]. cbn. intros c [? ?]. lia.
Qed.

Lemma wf_restored s s2 : wf s -> (brk s <= brk s2)%nat -> wf (restored s s2).
Proof.
  unfold wf, restored. cbn. intros Hwf Hle.
  eapply Forall_impl; [exact Hwf|]. cbn. intros c [? ?]. lia.
Qed.

Lemma outcome_ok_wf {A} s (a : A) s' :
  wf s -> outcome_ok s (Returns a s') -> wf s'.
Proof.
  unfold wf. cbn. intros Hwf (Hst & Hle & _). rewrite Hst.
  eapply Forall_impl; [exact Hwf|]. cbn. intros c [? ?]. lia.
Qed.

Lemma outcome_ok_throw_exception {A} e s :
  wf s -> outcome_ok s (@throw_exception H A e s).
Proof.
  intros Hwf. destruct (current_catcher s) as [|c prev] eqn:Hs.
  - rewrite throw_exception_empty by assumption. exact I.
  - destruct (running_dec c) as [Hr|Hr].
    + rewrite (throw_exception_running _ _ _ _ Hs Hr). unfold outcome_ok.
      exists c, prev, e.
      cbn [current_catcher set_mem set_current_catcher mem brk].
      rewrite throw_prelude_brk.
      repeat split; auto.
      * apply lookup_insert_eq.
      * intros p _ Hp. apply lookup_insert_ne. congruence.
    + destruct (throw_exception_not_running (A:=A) e s c prev Hs Hr) as [l ->].
      exact I.
Qed.

Lemma well_nested_throw_exception {A} e : well_nested (@throw_exception H A e).
Proof. intros s. apply outcome_ok_throw_exception. Qed.

Lemma well_nested_ret {A} (a : A) : well_nested (ret a).
Proof. intros s _. cbn. auto. Qed.

(** The discipline composes along [bind]. *)
Lemma outcome_ok_bind {A B} (m : M A) (k : A -> M B) s :
  outcome_ok s (m s) ->
  (forall a s', m s = Returns a s' -> outcome_ok s' (k a s')) ->
  outcome_ok s (bind m k s).
Proof.
  intros Hm Hk. unfold bind.
  destruct (m s) as [a s1|t r s1|l msg s1|w s1|] eqn:Hms; try exact Hm.
  specialize (Hk a s1 eq_refl). destruct Hm as (Hst & Hle & Hmem).
  destruct (k a s1) as [b s2|t r s2|l msg s2|w s2|]; try exact Hk.
  - destruct Hk as (Hst' & Hle' & Hmem'). repeat split.
    + congruence.
    + lia.
    + intros p Hp. rewrite Hmem' by lia. auto.
  - destruct Hk as (c & prev & e & H1 & H2 & H3 & H4 & H5 & H6 & H7 & H8).
    exists c, prev, e. repeat split; auto.
    + congruence.
    + lia.
    + intros p Hp Hne. rewrite H8 by (auto; lia). auto.
Qed.

Lemma well_nested_bind {A B} (m : M A) (k : A -> M B) :
  well_nested m -> (forall a, well_nested (k a)) -> well_nested (bind m k).
Proof.
  intros Hm Hk s Hwf. apply outcome_ok_bind; [auto|].
  intros a s' Hms. apply Hk. eapply outcome_ok_wf; [exact Hwf|].
  rewrite <- Hms. auto.
Qed.

(** Quiet code keeps to the discipline. *)
Lemma quiet_outcome_ok {A} (m : M A) s : quiet m -> outcome_ok s (m s).
Proof.
  intros Hq. specialize (Hq s).
  destruct (m s) as [a s1|t r s1|l msg s1|w s1|]; try contradiction; auto.
  destruct Hq as (Hst & Hmem & Hbrk & _). cbn. rewrite Hst, Hmem.
  auto.
Qed.

Lemma well_nested_quiet {A} (m : M A) : quiet m -> well_nested m.
Proof. intros Hq s _. apply quiet_outcome_ok, Hq. Qed.

Lemma same_core_refl s : same_core s s.
Proof. unfold same_core. auto. Qed.

Lemma same_core_trans s1 s2 s3 :
  same_core s1 s2 -> same_core s2 s3 -> same_core s1 s3.
Proof.
  unfold same_core.
  intros (Hst & Hmem & Hbrk & Hu & Hch) (Hst' & Hmem' & Hbrk' & Hu' & Hch').
  repeat split; [congruence | congruence | lia | congruence | congruence].
Qed.

Lemma same_core_with_trace tr s : same_core s (with_trace tr s).
Proof. unfold same_core. cbn. auto. Qed.

Lemma quiet_ret {A} (a : A) : quiet (ret a).
Proof. intros s. apply same_core_refl. Qed.

Lemma quiet_bind {A B} (m : M A) (k : A -> M B) :
  quiet m -> (forall a, quiet (k a)) -> quiet (bind m k).
Proof.
  intros Hm Hk s. unfold bind. specialize (Hm s).
  destruct (m s) as [a s1|t r s1|l msg s1|w s1|]; try contradiction; auto.
  specialize (Hk a s1).
  destruct (k a s1) as [b s2|t r s2|l msg s2|w s2|]; try contradiction; auto.
  eapply same_core_trans; eauto.
Qed.

Lemma quiet_call ev : quiet (call ev).
Proof. intros s. apply (same_core_with_trace (trace s ++ [ev]) s). Qed.

Lemma quiet_calls es : quiet (calls es).
Proof.
  induction es as [|ev es IH]; cbn [calls].
  - apply quiet_ret.
  - apply quiet_bind; [apply quiet_call | intros _; exact IH].
Qed.

Lemma quiet_internal_error {A} l msg : quiet (@internal_error A l msg).
Proof. intros s. exact I. Qed.

Lemma quiet_gdb_assert l expr b : quiet (gdb_assert l expr b).
Proof.
  unfold gdb_assert. destruct b; [apply quiet_ret | apply quiet_internal_error].
Qed.

Lemma quiet_store_char_ptr p str : quiet (store_char_ptr p str).
Proof. intros s. unfold same_core. cbn. auto. Qed.

Lemma quiet_xstrdup text : quiet (xstrdup text).
Proof. intros s. unfold same_core. cbn. auto. Qed.

Lemma quiet_print_exception file e : quiet (print_exception file e).
Proof.
  unfold print_exception.
  apply quiet_bind; [destruct (message e); [apply quiet_calls|apply quiet_ret]|].
  intros _. apply quiet_bind; [apply quiet_call|]. intros _.
  destruct (reason e =? RETURN_QUIT); [apply quiet_call|].
  destruct (reason e =? RETURN_ERROR);
    [apply quiet_call | apply quiet_internal_error].
Qed.

Lemma quiet_print_any_exception file prefix e :
  quiet (print_any_exception file prefix e).
Proof.
  unfold print_any_exception.
  destruct (pending_with_message e); [|apply quiet_ret].
  repeat (apply quiet_bind; [apply quiet_call | intros _]).
  apply quiet_bind; [|intros _; apply quiet_print_exception].
  destruct prefix as [[|ch rest]|]; try apply quiet_ret. apply quiet_call.
Qed.


(** The discipline, seen from an earlier state with the same stack. *)
Lemma outcome_ok_from {A} s s1 (r : result A) :
  current_catcher s1 = current_catcher s ->
  (brk s <= brk s1)%nat ->
  (forall p, (p < brk s)%nat -> mem s1 !! p = mem s !! p) ->
  outcome_ok s1 r -> outcome_ok s r.
Proof.
  intros Hst Hle Hmem Hr.
  destruct r as [b s2|t r s2|l msg s2|w s2|]; try exact Hr.
  - destruct Hr as (Hst' & Hle' & Hmem'). repeat split.
    + congruence.
    + lia.
    + intros p Hp. rewrite Hmem' by lia. auto.
  - destruct Hr as (c & prev & e & H1 & H2 & H3 & H4 & H5 & H6 & H7 & H8).
    exists c, prev, e. repeat split; auto.
    + congruence.
    + lia.
    + intros p Hp Hne. rewrite H8 by (auto; lia). auto.
Qed.

Lemma entered_slot u m s :
  mem (entered u m s) !! brk s = Some exception_none.
Proof. unfold entered. cbn [mem]. apply lookup_insert_eq. Qed.

Lemma entered_mem_below u m s p :
  (p < brk s)%nat -> mem (entered u m s) !! p = mem s !! p.
Proof. intros Hp. unfold entered. cbn [mem]. apply lookup_insert_ne. lia. Qed.

(** A protected operation that keeps to the discipline ends, seen from the
    state in which the catch primitive was called, in one of two ways. *)
Lemma body_returns u m s {V} (v : V) s2 :
  outcome_ok (entered u m s) (Returns v s2) ->
  mem s2 !! brk s = Some exception_none
  /\ (S (S (brk s)) <= brk s2)%nat
  /\ (forall p, (p < brk s)%nat -> mem s2 !! p = mem s !! p).
Proof.
  intros (_ & Hle & Hmem). cbn [brk entered] in *. split; [|split].
  - rewrite Hmem by lia. apply entered_slot.
  - exact Hle.
  - intros p Hp. rewrite Hmem by lia. apply entered_mem_below, Hp.
Qed.

Lemma body_throws u m s {V} t r s2 :
  outcome_ok (A:=V) (entered u m s) (LongJmp t r s2) ->
  exists e,
    mem s2 !! brk s = Some e
    /\ r = reason e
    /\ t = S (brk s)
    /\ (S (S (brk s)) <= brk s2)%nat
    /\ (forall p, (p < brk s)%nat -> mem s2 !! p = mem s !! p).
Proof.
  intros (c & prev & e & Hs & _ & _ & Ht & Hr & He & Hle & Hmem).
  cbn [current_catcher entered] in Hs. injection Hs as <- <-.
  cbn [exception_ptr buf brk entered] in *.
  exists e. repeat split; auto.
  intros p Hp. rewrite Hmem by lia. apply entered_mem_below, Hp.
Qed.

(** The four catch primitives: slot, frame, loop, then the slot is read and
    [k] run on the exception found and on [val]. *)
Lemma catch_frame_load {V B} fuel u m (body : M V) val0
    (k : exception -> V -> M B) s :
  (2 <= fuel)%nat -> wf s ->
  outcome_ok (entered u m s) (body (entered u m s)) ->
  (exception <- alloca ;;
   catch <- catcher_init u exception m ;;
   val <- catch_loop fuel catch body val0 ;;
   e <- load exception ;;
   k e val) s
  = match body (entered u m s) with
    | Returns v s2 => k exception_none v (restored s s2)
    | LongJmp _ _ s2 =>
        match mem s2 !! brk s with
        | Some e =>
            if claims m e then k e val0 (restored s s2)
            else throw_exception e (restored s s2)
        | None => Undefined WildPointer s2
        end
    | InternalError l msg s2 => InternalError l msg s2
    | Undefined w s2 => Undefined w s2
    | OutOfFuel => OutOfFuel
    end.
Proof.
  intros Hfuel Hwf Hok.
  rewrite (catch_frame fuel u m body val0
             (fun exception val => e <- load exception ;; k e val) s Hfuel Hwf Hok).
  destruct (body (entered u m s)) as [v s2|t r s2|l msg s2|w s2|];
    try reflexivity.
  - apply body_returns in Hok. destruct Hok as (He & _).
    unfold bind, load. cbn [mem restored set_uiout set_cleanup_chain
                            set_current_catcher].
    rewrite He. reflexivity.
  - apply body_throws in Hok. destruct Hok as (e & He & _).
    rewrite He. destruct (claims m e); [|reflexivity].
    unfold bind, load. cbn [mem restored set_uiout set_cleanup_chain
                            set_current_catcher].
    rewrite He. reflexivity.
Qed.

(** Two evaluations of the loop condition are all the loop makes: more
    fuel changes nothing. *)
Lemma catch_frame_fuel {V B} fuel fuel' u m (body : M V) val0
    (k : addr -> V -> M B) s :
  (2 <= fuel)%nat -> (2 <= fuel')%nat -> wf s ->
  outcome_ok (entered u m s) (body (entered u m s)) ->
  (exception <- alloca ;;
   catch <- catcher_init u exception m ;;
   val <- catch_loop fuel catch body val0 ;;
   k exception val) s
  = (exception <- alloca ;;
     catch <- catcher_init u exception m ;;
     val <- catch_loop fuel' catch body val0 ;;
     k exception val) s.
Proof.
  intros Hfuel Hfuel' Hwf Hok.
  rewrite (catch_frame fuel u m body val0 k s Hfuel Hwf Hok).
  rewrite (catch_frame fuel' u m body val0 k s Hfuel' Hwf Hok).
  reflexivity.
Qed.

(** With a quiet [k], the call as a whole keeps to the discipline; when it
    returns, [uiout] and the cleanup chain are those of the call; when it
    does not claim the exception, it throws it again from a state in which
    the stack, [uiout] and the cleanup chain are those of the call. *)
Lemma catch_closure {V B} fuel u m (body : M V) val0
    (k : exception -> V -> M B) s :
  (2 <= fuel)%nat -> wf s ->
  (forall e v, quiet (k e v)) ->
  outcome_ok (entered u m s) (body (entered u m s)) ->
  forall r,
    r = (exception <- alloca ;;
         catch <- catcher_init u exception m ;;
         val <- catch_loop fuel catch body val0 ;;
         e <- load exception ;;
         k e val) s ->
    outcome_ok s r
    /\ match r with
       | Returns _ s' =>
           uiout s' = uiout s /\ cleanup_chain s' = cleanup_chain s
       | LongJmp _ _ _ =>
           exists e s_pop,
             current_catcher s_pop = current_catcher s
             /\ uiout s_pop = uiout s
             /\ cleanup_chain s_pop = cleanup_chain s
             /\ claims m e = false
             /\ r = throw_exception e s_pop
       | _ => True
       end.
Proof.
  intros Hfuel Hwf Hk Hok r ->.
  rewrite (catch_frame_load fuel u m body val0 k s Hfuel Hwf Hok).
  assert (Hquiet : forall e v s2,
             (S (S (brk s)) <= brk s2)%nat ->
             (forall p, (p < brk s)%nat -> mem s2 !! p = mem s !! p) ->
             let r := k e v (restored s s2) in
             outcome_ok s r
             /\ match r with
                | Returns _ s' =>
                    uiout s' = uiout s /\ cleanup_chain s' = cleanup_chain s
                | LongJmp _ _ _ => False
                | _ => True
                end).
  { intros e v s2 Hle Hmem r. subst r. specialize (Hk e v (restored s s2)).
    destruct (k e v (restored s s2)) as [b s3|t r s3|l msg s3|w s3|];
      try contradiction; auto.
    destruct Hk as (Hst & Hm & Hb & Hu & Hc). cbn in Hst, Hm, Hb, Hu, Hc.
    split; [|auto]. cbn. rewrite Hst, Hm. repeat split; auto. lia. }
  destruct (body (entered u m s)) as [v s2|t r s2|l msg s2|w s2|];
    cbv beta iota; try (split; exact I); try contradiction.
  - apply body_returns in Hok. destruct Hok as (_ & Hle & Hmem).
    destruct (Hquiet exception_none v s2 Hle Hmem) as [H1 H2].
    split; [exact H1|].
    destruct (k exception_none v (restored s s2)); auto. contradiction.
  - apply body_throws in Hok. destruct Hok as (e & He & _ & _ & Hle & Hmem).
    rewrite He. destruct (claims m e) eqn:Hclaims.
    + destruct (Hquiet e val0 s2 Hle Hmem) as [H1 H2].
      split; [exact H1|].
      destruct (k e val0 (restored s s2)); auto. contradiction.
    + assert (Hthrow : outcome_ok s (@throw_exception H B e (restored s s2))).
      { apply (outcome_ok_from s (restored s s2)); auto.
        - cbn. lia.
        - apply outcome_ok_throw_exception, wf_restored; auto. lia. }
      split; [exact Hthrow|].
      destruct (throw_exception e (restored s s2)) eqn:Ht; try exact I.
      { exfalso. eapply throw_exception_no_return, Ht. }
      exists e, (restored s s2).
      split; [reflexivity|]. split; [reflexivity|]. split; [reflexivity|].
      split; [exact Hclaims|]. symmetry. exact Ht.
Qed.


(** ** The four catch primitives *)

(** Each primitive is the shared opening followed by quiet code. *)
Lemma catch_exception_unfold fuel u func args m s :
  catch_exception fuel u func args m s
  = (exception <- alloca ;;
     catch <- catcher_init u exception m ;;
     val <- catch_loop fuel catch (func u args) tt ;;
     e <- load exception ;;
     ret e) s.
Proof. reflexivity. Qed.

Lemma catch_exceptions_with_msg_unfold fuel u func args gdberrmsg m s :
  catch_exceptions_with_msg fuel u func args gdberrmsg m s
  = (exception <- alloca ;;
     catch <- catcher_init u exception m ;;
     val <- catch_loop fuel catch (func u args) 0 ;;
     e <- load exception ;;
     (print_any_exception gdb_stderr None e ;;
      gdb_assert 467 "val >= 0" (0 <=? val) ;;
      gdb_assert 468 "exception.reason <= 0" (reason e <=? 0) ;;
      if reason e <? 0 then
        match gdberrmsg with
        | Some p =>
            match message e with
            | Some text =>
                copy <- xstrdup text ;; store_char_ptr p (Block copy)
            | None => store_char_ptr p NULL
            end
        | None => ret tt
        end ;;
        ret (reason e)
      else ret val)) s.
Proof. reflexivity. Qed.

Lemma catch_errors_unfold fuel func args errstring m s :
  catch_errors fuel func args errstring m s
  = (exception <- alloca ;;
     catch <- catcher_init (uiout s) exception m ;;
     val <- catch_loop fuel catch (func args) 0 ;;
     e <- load exception ;;
     (print_any_exception gdb_stderr errstring e ;;
      if reason e =? 0 then ret val else ret 0)) s.
Proof. reflexivity. Qed.

Lemma catch_command_errors_unfold fuel command arg from_tty m s :
  catch_command_errors fuel command arg from_tty m s
  = (exception <- alloca ;;
     catch <- catcher_init (uiout s) exception m ;;
     val <- catch_loop fuel catch (command arg from_tty) tt ;;
     e <- load exception ;;
     (print_any_exception gdb_stderr None e ;;
      if reason e <? 0 then ret 0 else ret 1)) s.
Proof. reflexivity. Qed.

Lemma quiet_catch_exceptions_with_msg_tail gdberrmsg e val :
  quiet (print_any_exception gdb_stderr None e ;;
         gdb_assert 467 "val >= 0" (0 <=? val) ;;
         gdb_assert 468 "exception.reason <= 0" (reason e <=? 0) ;;
         if reason e <? 0 then
           match gdberrmsg with
           | Some p =>
               match message e with
               | Some text =>
                   copy <- xstrdup text ;; store_char_ptr p (Block copy)
               | None => store_char_ptr p NULL
               end
           | None => ret tt
           end ;;
           ret (reason e)
         else ret val).
Proof.
  apply quiet_bind; [apply quiet_print_any_exception | intros _].
  apply quiet_bind; [apply quiet_gdb_assert | intros _].
  apply quiet_bind; [apply quiet_gdb_assert | intros _].
  destruct (reason e <? 0); [|apply quiet_ret].
  apply quiet_bind; [|intros _; apply quiet_ret].
  destruct gdberrmsg as [p|]; [|apply quiet_ret].
  destruct (message e) as [text|]; [|apply quiet_store_char_ptr].
  apply quiet_bind; [apply quiet_xstrdup | intros q].
  apply quiet_store_char_ptr.
Qed.

Lemma quiet_catch_errors_tail errstring e val :
  quiet (print_any_exception gdb_stderr errstring e ;;
         if reason e =? 0 then ret val else ret 0).
Proof.
  apply quiet_bind; [apply quiet_print_any_exception | intros _].
  destruct (reason e =? 0); apply quiet_ret.
Qed.

Lemma quiet_catch_command_errors_tail e :
  quiet (print_any_exception gdb_stderr None e ;;
         if reason e <? 0 then ret 0 else ret 1).
Proof.
  apply quiet_bind; [apply quiet_print_any_exception | intros _].
  destruct (reason e <? 0); apply quiet_ret.
Qed.

(** The primitives keep to the discipline when the protected operation
    does: code built from the throw and catch entry points is well nested
    at every depth. *)
Lemma well_nested_catch_exception fuel u func args m :
  (2 <= fuel)%nat -> well_nested (func u args) ->
  well_nested (catch_exception fuel u func args m).
Proof.
  intros Hfuel Hbody s Hwf.
  refine (proj1 (catch_closure fuel u m (func u args) tt (fun e _ => ret e) s
                   Hfuel Hwf _ (Hbody _ (wf_entered u m s Hwf)) _
                   (catch_exception_unfold fuel u func args m s))).
  intros e _. apply quiet_ret.
Qed.

Lemma well_nested_catch_exceptions_with_msg fuel u func args gdberrmsg m :
  (2 <= fuel)%nat -> well_nested (func u args) ->
  well_nested (catch_exceptions_with_msg fuel u func args gdberrmsg m).
Proof.
  intros Hfuel Hbody s Hwf.
  refine (proj1 (catch_closure fuel u m (func u args) 0 _ s
                   Hfuel Hwf (quiet_catch_exceptions_with_msg_tail gdberrmsg)
                   (Hbody _ (wf_entered u m s Hwf)) _
                   (catch_exceptions_with_msg_unfold fuel u func args
                      gdberrmsg m s))).
Qed.

Lemma well_nested_catch_exceptions fuel u func args m :
  (2 <= fuel)%nat -> well_nested (func u args) ->
  well_nested (catch_exceptions fuel u func args m).
Proof.
  exact (well_nested_catch_exceptions_with_msg fuel u func args None m).
Qed.

Lemma well_nested_catch_errors fuel func args errstring m :
  (2 <= fuel)%nat -> well_nested (func args) ->
  well_nested (catch_errors fuel func args errstring m).
Proof.
  intros Hfuel Hbody s Hwf.
  refine (proj1 (catch_closure fuel (uiout s) m (func args) 0 _ s
                   Hfuel Hwf (quiet_catch_errors_tail errstring)
                   (Hbody _ (wf_entered (uiout s) m s Hwf)) _
                   (catch_errors_unfold fuel func args errstring m s))).
Qed.

Lemma well_nested_catch_command_errors fuel command arg from_tty m :
  (2 <= fuel)%nat -> well_nested (command arg from_tty) ->
  well_nested (catch_command_errors fuel command arg from_tty m).
Proof.
  intros Hfuel Hbody s Hwf.
  refine (proj1 (catch_closure fuel (uiout s) m (command arg from_tty) tt _ s
                   Hfuel Hwf (fun e _ => quiet_catch_command_errors_tail e)
                   (Hbody _ (wf_entered (uiout s) m s Hwf)) _
                   (catch_command_errors_unfold fuel command arg from_tty
                      m s))).
Qed.

(** The throw entry points keep to the discipline. *)
Lemma well_nested_throw_reason {A} r : well_nested (@throw_reason H A r).
Proof.
  unfold throw_reason.
  destruct (r =? RETURN_QUIT); [apply well_nested_throw_exception|].
  destruct (r =? RETURN_ERROR); [apply well_nested_throw_exception|].
  intros s _. exact I.
Qed.

Lemma well_nested_throw_it {A} r err fmt ap :
  well_nested (@throw_it H A r err fmt ap).
Proof.
  unfold throw_it.
  apply well_nested_bind.
  { intros s _. unfold release_and_format.
    destruct (formatted fmt ap); cbn; auto. }
  intros text. apply well_nested_bind.
  { apply well_nested_quiet. intros s. unfold same_core. cbn. auto. }
  intros _. apply well_nested_bind.
  { apply well_nested_quiet. intros s. apply same_core_refl. }
  intros e. apply well_nested_throw_exception.
Qed.

Lemma well_nested_throw_verror {A} err fmt ap :
  well_nested (@throw_verror H A err fmt ap).
Proof. exact (well_nested_throw_it _ _ _ _). Qed.

Lemma well_nested_throw_vfatal {A} fmt ap :
  well_nested (@throw_vfatal H A fmt ap).
Proof. exact (well_nested_throw_it _ _ _ _). Qed.

Lemma well_nested_throw_error {A} err fmt args :
  well_nested (@throw_error H A err fmt args).
Proof. exact (well_nested_throw_it _ _ _ _). Qed.


(** ** Printing *)

Lemma with_trace_same s : with_trace (trace s) s = s.
Proof. destruct s; reflexivity. Qed.

Lemma calls_eq es s : calls es s = Returns tt (with_trace (trace s ++ es) s).
Proof.
  revert s. induction es as [|ev es IH]; intros s; cbn [calls].
  - rewrite app_nil_r, with_trace_same. reflexivity.
  - unfold bind, call, modify. rewrite IH. cbn [trace log with_trace].
    rewrite <- app_assoc. reflexivity.
Qed.

(** [print_exception] ends in [internal_error] when the reason is neither
    [RETURN_QUIT] nor [RETURN_ERROR], and returns otherwise; it changes
    nothing but the log. *)
Lemma print_exception_outcome file e s :
  exists tr,
    print_exception file e s
    = if (reason e =? RETURN_QUIT) || (reason e =? RETURN_ERROR)
      then Returns tt (with_trace tr s)
      else InternalError 304 "Bad switch." (with_trace tr s).
Proof.
  unfold print_exception, bind.
  assert (Hmsg : exists tr,
             match message e with
             | Some msg => calls (print_exception_lines file "" msg)
             | None => ret tt
             end s = Returns tt (with_trace tr s)).
  { destruct (message e).
    - eexists. apply calls_eq.
    - exists (trace s). rewrite with_trace_same. reflexivity. }
  destruct Hmsg as [tr ->]. unfold call, modify. cbn [log with_trace trace].
  destruct (reason e =? RETURN_QUIT); cbn [orb].
  - eexists. reflexivity.
  - destruct (reason e =? RETURN_ERROR); eexists; reflexivity.
Qed.

Lemma print_any_exception_outcome file prefix e s :
  exists tr,
    print_any_exception file prefix e s
    = if negb (pending_with_message e)
         || (reason e =? RETURN_QUIT) || (reason e =? RETURN_ERROR)
      then Returns tt (with_trace tr s)
      else InternalError 304 "Bad switch." (with_trace tr s).
Proof.
  unfold print_any_exception.
  destruct (pending_with_message e); cbn [negb orb].
  - unfold bind at 1 2 3 4 5. unfold call, modify.
    cbn [log with_trace trace].
    assert (Hpre : exists tr,
               match prefix with
               | Some (String ch rest) =>
                   fun s => Returns tt (log (Call_fputs_filtered (String ch rest) file) s)
               | _ => ret tt
               end
                 (log Call_annotate_error_begin
                    (log (Call_gdb_flush gdb_stdout)
                       (log (Call_wrap_here "")
                          (log Call_target_terminal_ours s))))
               = Returns tt (with_trace tr s)).
    { destruct prefix as [[|ch rest]|]; eexists; reflexivity. }
    destruct Hpre as [tr ->].
    destruct (print_exception_outcome file e (with_trace tr s)) as [tr' ->].
    exists tr'. destruct ((reason e =? RETURN_QUIT) || (reason e =? RETURN_ERROR));
      reflexivity.
  - exists (trace s). rewrite with_trace_same. reflexivity.
Qed.

Lemma print_any_exception_returns file prefix e s :
  reason e = RETURN_QUIT \/ reason e = RETURN_ERROR
  \/ pending_with_message e = false ->
  exists tr, print_any_exception file prefix e s = Returns tt (with_trace tr s).
Proof.
  intros Hp. destruct (print_any_exception_outcome file prefix e s) as [tr E].
  exists tr. rewrite E.
  destruct Hp as [-> | [-> | ->]]; rewrite ?Z.eqb_refl, ?orb_true_r;
    reflexivity.
Qed.


(** * The claims *)

(** C1.  The catcher state machine implements the transition table.  With
    a frame [c] on top of the stack: from [CATCHER_CREATED], [CATCH_ITER]
    moves to [CATCHER_RUNNING] and returns 1; from [CATCHER_RUNNING],
    [CATCH_ITER] pops the frame and returns 0, [CATCH_ITER_1] moves to
    [CATCHER_RUNNING_1] and returns 1, [CATCH_THROWING] moves to
    [CATCHER_ABORTING] and returns 1; from [CATCHER_RUNNING_1], [CATCH_ITER]
    pops the frame and returns 0, [CATCH_ITER_1] moves to [CATCHER_RUNNING]
    and returns 0, [CATCH_THROWING] moves to [CATCHER_ABORTING] and returns
    1; from [CATCHER_ABORTING], [CATCH_ITER] reads the exception in the
    frame's slot and, when the mask contains its reason, pops the frame and
    returns 0, and otherwise pops the frame and calls [throw_exception] with
    that exception; the four other pairs end in [internal_error].  Popping
    unlinks the frame and puts back the [uiout] and cleanup chain it
    saved. *)
Theorem catcher_state_machine_table (s : gdb) (c : catcher)
    (prev : list catcher) :
  current_catcher s = c :: prev ->
  let moved st := set_current_catcher (set_state st c :: prev) s in
  match state c with
  | CATCHER_CREATED =>
      catcher_state_machine CATCH_ITER s = Returns 1 (moved CATCHER_RUNNING)
      /\ catcher_state_machine CATCH_ITER_1 s
         = InternalError 148 "bad state" s
      /\ catcher_state_machine CATCH_THROWING s
         = InternalError 148 "bad state" s
  | CATCHER_RUNNING =>
      catcher_state_machine CATCH_ITER s = Returns 0 (popped c prev s)
      /\ catcher_state_machine CATCH_ITER_1 s
         = Returns 1 (moved CATCHER_RUNNING_1)
      /\ catcher_state_machine CATCH_THROWING s
         = Returns 1 (moved CATCHER_ABORTING)
  | CATCHER_RUNNING_1 =>
      catcher_state_machine CATCH_ITER s = Returns 0 (popped c prev s)
      /\ catcher_state_machine CATCH_ITER_1 s
         = Returns 0 (moved CATCHER_RUNNING)
      /\ catcher_state_machine CATCH_THROWING s
         = Returns 1 (moved CATCHER_ABORTING)
  | CATCHER_ABORTING =>
      (forall e, mem s !! exception_ptr c = Some e ->
         catcher_state_machine CATCH_ITER s
         = if negb (Z.land (mask c) (RETURN_MASK (reason e)) =? 0)
           then Returns 0 (popped c prev s)
           else throw_exception e (popped c prev s))
      /\ catcher_state_machine CATCH_ITER_1 s
         = InternalError 205 "bad state" s
      /\ catcher_state_machine CATCH_THROWING s
         = InternalError 205 "bad state" s
  end
  /\ current_catcher (popped c prev s) = prev
  /\ uiout (popped c prev s) = saved_uiout c
  /\ cleanup_chain (popped c prev s) = saved_cleanup_chain c.
Proof.
  intros Hs moved. split; [|repeat split].
  destruct (state c) eqn:Hc.
  - split; [exact (csm_created_iter s c prev Hs Hc)|].
    split; apply (csm_created_other s c prev); auto; discriminate.
  - split; [apply csm_running_iter; [exact Hs | left; exact Hc]|].
    split; apply (csm_set_state s c prev _ CATCHER_RUNNING); auto.
  - split; [apply csm_running_iter; [exact Hs | right; exact Hc]|].
    split; apply (csm_set_state s c prev _ CATCHER_RUNNING_1); auto.
  - split; [intros e He; exact (csm_aborting_iter s c prev e Hs Hc He)|].
    split; apply (csm_aborting_other s c prev); auto; discriminate.
Qed.



(** C10.  [catch_exceptions] is [catch_exceptions_with_msg] with a null
    message slot: the same value and the same effects, for every output
    sink, protected operation, argument and mask, from every state. *)
Theorem catch_exceptions_is_with_msg_null (fuel : nat) (func_uiout : ui_out)
    (func : catch_exceptions_ftype) (func_args : Z) (m : Z) (s : gdb) :
  catch_exceptions fuel func_uiout func func_args m s
  = catch_exceptions_with_msg fuel func_uiout func func_args None m s.
Proof. reflexivity. Qed.


Lemma outcome_ok_stack_kept {A} s (r : result A) :
  outcome_ok s r -> stack_kept s r.
Proof.
  destruct r as [a s'|t v s'|l msg s'|w s'|]; cbn; auto.
  - intros (Hst & _). exact Hst.
  - intros (c & prev & e & H1 & _ & H3 & H4 & _). exists c, prev. auto.
Qed.

(** C4.  After any of the four catch primitives (and [catch_exceptions])
    has run a protected operation that reaches the catcher stack through
    the throw and catch entry points only, the stack is the one the
    primitive was called with: when the primitive returns, after the
    operation completed or threw an exception the mask claims, the stack is
    equal to the one before the call; when it relays an exception the mask
    does not claim, its own frame is gone and the jump goes to the frame
    that was on top before the call.  The loop needs two evaluations of its
    condition. *)
Theorem catch_primitives_restore_stack (fuel : nat) (s : gdb) :
  (2 <= fuel)%nat -> wf s ->
  (forall u func args m,
     well_nested (func u args) ->
     stack_kept s (catch_exception fuel u func args m s))
  /\ (forall u func args gdberrmsg m,
        well_nested (func u args) ->
        stack_kept s (catch_exceptions_with_msg fuel u func args gdberrmsg m s))
  /\ (forall u func args m,
        well_nested (func u args) ->
        stack_kept s (catch_exceptions fuel u func args m s))
  /\ (forall func args errstring m,
        well_nested (func args) ->
        stack_kept s (catch_errors fuel func args errstring m s))
  /\ (forall command arg from_tty m,
        well_nested (command arg from_tty) ->
        stack_kept s (catch_command_errors fuel command arg from_tty m s)).
Proof.
  intros Hfuel Hwf. repeat split; intros; apply outcome_ok_stack_kept.
  - apply well_nested_catch_exception; auto.
  - apply well_nested_catch_exceptions_with_msg; auto.
  - apply well_nested_catch_exceptions; auto.
  - apply well_nested_catch_errors; auto.
  - apply well_nested_catch_command_errors; auto.
Qed.

Lemma catch_closure_kept {V B} fuel u m (body : M V) val0
    (k : exception -> V -> M B) s r :
  (2 <= fuel)%nat -> wf s ->
  (forall e v, quiet (k e v)) ->
  well_nested body ->
  r = (exception <- alloca ;;
       catch <- catcher_init u exception m ;;
       val <- catch_loop fuel catch body val0 ;;
       e <- load exception ;;
       k e val) s ->
  sink_and_cleanups_kept s r.
Proof.
  intros Hfuel Hwf Hk Hbody Hr.
  destruct (catch_closure fuel u m body val0 k s Hfuel Hwf Hk
              (Hbody _ (wf_entered u m s Hwf)) r Hr) as [Hok Hkept].
  destruct r as [a s'|t v s'|l msg s'|w s'|]; auto.
  destruct Hkept as (e & s_pop & H1 & H2 & H3 & _ & H5).
  exists e, s_pop. auto.
Qed.

(** C9.  [catcher_init] saves [uiout] and the cleanup chain in the frame it
    pushes, and [catcher_pop] puts back what the frame holds.  Hence, for
    each catch primitive around an operation that keeps to the stack
    discipline: when it returns, after the operation completed or threw a
    claimed exception, [uiout] and the cleanup chain are those of the call;
    when it relays, the exception is thrown again from a state in which the
    stack, [uiout] and the cleanup chain are those of the call. *)
Theorem catch_primitives_restore_sink_and_cleanups (fuel : nat) (s : gdb) :
  (2 <= fuel)%nat -> wf s ->
  (* saved on push *)
  (forall u p m,
     exists catch s',
       catcher_init u p m s = Returns catch s'
       /\ uiout s' = u /\ cleanup_chain s' = []
       /\ exists c, current_catcher s' = c :: current_catcher s
                    /\ saved_uiout c = uiout s
                    /\ saved_cleanup_chain c = cleanup_chain s)
  (* restored on pop *)
  /\ (forall c prev,
        current_catcher s = c :: prev ->
        exists s', catcher_pop s = Returns tt s'
                   /\ uiout s' = saved_uiout c
                   /\ cleanup_chain s' = saved_cleanup_chain c)
  (* on every path out of the four primitives *)
  /\ (forall u func args m,
        well_nested (func u args) ->
        sink_and_cleanups_kept s (catch_exception fuel u func args m s))
  /\ (forall u func args gdberrmsg m,
        well_nested (func u args) ->
        sink_and_cleanups_kept s
          (catch_exceptions_with_msg fuel u func args gdberrmsg m s))
  /\ (forall func args errstring m,
        well_nested (func args) ->
        sink_and_cleanups_kept s (catch_errors fuel func args errstring m s))
  /\ (forall command arg from_tty m,
        well_nested (command arg from_tty) ->
        sink_and_cleanups_kept s
          (catch_command_errors fuel command arg from_tty m s)).
Proof.
  intros Hfuel Hwf. split; [|split; [|repeat split]].
  - intros u p m. do 2 eexists. split; [reflexivity|].
    split; [reflexivity|]. split; [reflexivity|].
    eexists. split; [reflexivity|]. split; reflexivity.
  - intros c prev Hs. exists (popped c prev s).
    split; [apply catcher_pop_eq, Hs|]. split; reflexivity.
  - intros u func args m Hb.
    apply (catch_closure_kept fuel u m (func u args) tt (fun e _ => ret e) s);
      auto.
    intros e _. apply quiet_ret.
  - intros u func args gdberrmsg m Hb.
    exact (catch_closure_kept fuel u m (func u args) 0 _ s _ Hfuel Hwf
             (quiet_catch_exceptions_with_msg_tail gdberrmsg) Hb
             (catch_exceptions_with_msg_unfold fuel u func args gdberrmsg m s)).
  - intros func args errstring m Hb.
    exact (catch_closure_kept fuel (uiout s) m (func args) 0 _ s _ Hfuel Hwf
             (quiet_catch_errors_tail errstring) Hb
             (catch_errors_unfold fuel func args errstring m s)).
  - intros command arg from_tty m Hb.
    exact (catch_closure_kept fuel (uiout s) m (command arg from_tty) tt _ s _
             Hfuel Hwf (fun e _ => quiet_catch_command_errors_tail e) Hb
             (catch_command_errors_unfold fuel command arg from_tty m s)).
Qed.


(** A format and arguments that are given by their texts are formatted as
    [xstrvprintf] formats those texts. *)
Lemma va_texts_map texts : va_texts (map Str texts) = Some texts.
Proof.
  induction texts as [|text texts IH]; cbn [map va_texts];
    [|rewrite IH]; reflexivity.
Qed.

Lemma formatted_texts (fmt : string) texts :
  formatted fmt (map Str texts) = Some (xstrvprintf fmt texts).
Proof. unfold formatted. rewrite va_texts_map. reflexivity. Qed.

(** [throw_it] by cases on its format and arguments: when none of them
    points into the buffer it has just released, it saves the formatted
    text and throws an exception that carries it; otherwise the formatter
    reads a released buffer. *)
Lemma throw_it_unfold {A} r err fmt ap text s :
  formatted fmt ap = Some text ->
  @throw_it H A r err fmt ap s
  = throw_exception
      {| reason := r; error := err; message := Some text |}
      (set_last_message (Some text) s).
Proof.
  intros Hap. unfold throw_it, bind, release_and_format, modify.
  rewrite Hap. reflexivity.
Qed.

Lemma throw_it_freed {A} r err fmt ap s :
  formatted fmt ap = None ->
  @throw_it H A r err fmt ap s = Undefined FreedBuffer s.
Proof.
  intros Hap. unfold throw_it, bind, release_and_format. rewrite Hap.
  reflexivity.
Qed.

(** C8 as the code has it.  With no catcher on the stack, a throw does its
    work on the flags, the breakpoint actions, the display and the
    cleanups, and then the state machine dereferences the null
    [current_catcher]: the behaviour is undefined, and [internal_error] is
    not called.  This holds for [throw_exception], for [throw_reason] with
    [RETURN_QUIT] or [RETURN_ERROR], and for [throw_verror], [throw_vfatal]
    and [throw_error] (after the message is saved; with a format or an
    argument that points into the released [last_message] buffer the
    behaviour is undefined already when the message is formatted).  Only
    [throw_reason] with another reason ends in [internal_error], before it
    looks at the stack. *)
Theorem throw_without_catcher {A} (s : gdb) :
  current_catcher s = [] ->
  (forall e,
     @throw_exception H A e s = Undefined NullCatcher (throw_prelude s))
  /\ (forall r,
        @throw_reason H A r s
        = if (r =? RETURN_QUIT) || (r =? RETURN_ERROR)
          then Undefined NullCatcher (throw_prelude s)
          else InternalError 256 "bad switch" s)
  /\ (forall err fmt ap,
        let r : result A :=
          match formatted fmt ap with
          | Some text =>
              Undefined NullCatcher
                (throw_prelude (set_last_message (Some text) s))
          | None => Undefined FreedBuffer s
          end in
        @throw_verror H A err fmt ap s = r
        /\ @throw_vfatal H A fmt ap s = r
        /\ @throw_error H A err fmt ap s = r).
Proof.
  intros Hs. split; [|split].
  - intros e. apply throw_exception_empty, Hs.
  - intros r. unfold throw_reason.
    destruct (r =? RETURN_QUIT); cbn [orb].
    + apply throw_exception_empty, Hs.
    + destruct (r =? RETURN_ERROR); [apply throw_exception_empty, Hs|].
      reflexivity.
  - intros err fmt ap r.
    assert (Hit : forall r' err', @throw_it H A r' err' fmt ap s = r).
    { intros r' err'. subst r. destruct (formatted fmt ap) as [text|] eqn:Hap.
      - rewrite (throw_it_unfold r' err' fmt ap text s Hap).
        apply throw_exception_empty. exact Hs.
      - exact (throw_it_freed r' err' fmt ap s Hap). }
    repeat split; apply Hit.
Qed.

(** An exception is delivered to the frame on top when that frame runs
    protected code. *)
Lemma throw_exception_delivers {A} e s c prev :
  current_catcher s = c :: prev -> running c ->
  exists s',
    @throw_exception H A e s = LongJmp (buf c) (reason e) s'
    /\ mem s' !! exception_ptr c = Some e.
Proof.
  intros Hs Hrun. eexists. split.
  - apply (throw_exception_running e s c prev Hs Hrun).
  - cbn [mem set_mem]. apply lookup_insert_eq.
Qed.

(** C7 as the code has it.  The no-exception value has reason 0 and no
    message: [exception_none], and every exception slot as [catcher_init]
    clears it, in whatever state it is called (also for the outermost
    catch, on an empty stack).  On a frame that runs protected code, the
    exceptions [throw_reason] delivers carry the reason it is given and no
    message.  The exceptions [throw_verror], [throw_vfatal] and
    [throw_error] deliver carry the reason [RETURN_ERROR] or [RETURN_QUIT]
    and a message, the formatted text, when neither the format nor an
    argument points into the [last_message] buffer; otherwise no exception
    is built, since the formatter reads the buffer [throw_it] has just
    released. *)
Theorem exceptions_built (s : gdb) :
  (reason exception_none = 0 /\ message exception_none = None)
  /\ (forall u p m,
        exists catch s',
          catcher_init u p m s = Returns catch s'
          /\ mem s' !! p = Some exception_none)
  /\ (forall c prev,
        current_catcher s = c :: prev ->
        state c = CATCHER_RUNNING \/ state c = CATCHER_RUNNING_1 ->
        (forall A r,
           r = RETURN_QUIT \/ r = RETURN_ERROR ->
           exists e s',
             @throw_reason H A r s = LongJmp (buf c) r s'
             /\ mem s' !! exception_ptr c = Some e
             /\ reason e = r /\ message e = None)
        /\ (forall A err fmt ap,
              match formatted fmt ap with
              | Some text =>
                  exists s',
                    @throw_verror H A err fmt ap s
                    = LongJmp (buf c) RETURN_ERROR s'
                    /\ mem s' !! exception_ptr c
                       = Some {| reason := RETURN_ERROR; error := err;
                                 message := Some text |}
              | None => @throw_verror H A err fmt ap s = Undefined FreedBuffer s
              end)
        /\ (forall A fmt ap,
              match formatted fmt ap with
              | Some text =>
                  exists s',
                    @throw_vfatal H A fmt ap s = LongJmp (buf c) RETURN_QUIT s'
                    /\ mem s' !! exception_ptr c
                       = Some {| reason := RETURN_QUIT; error := NO_ERROR;
                                 message := Some text |}
              | None => @throw_vfatal H A fmt ap s = Undefined FreedBuffer s
              end)
        /\ (forall A err fmt args,
              match formatted fmt args with
              | Some text =>
                  exists s',
                    @throw_error H A err fmt args s
                    = LongJmp (buf c) RETURN_ERROR s'
                    /\ mem s' !! exception_ptr c
                       = Some {| reason := RETURN_ERROR; error := err;
                                 message := Some text |}
              | None =>
                  @throw_error H A err fmt args s = Undefined FreedBuffer s
              end)).
Proof.
  split; [split; reflexivity|]. split.
  { intros u p m. do 2 eexists. split; [reflexivity|].
    cbn [mem set_mem set_current_catcher set_cleanup_chain set_uiout set_brk].
    apply lookup_insert_eq. }
  intros c prev Hs Hrun.
  assert (Hit : forall A r err fmt ap,
             match formatted fmt ap with
             | Some text =>
                 exists s',
                   @throw_it H A r err fmt ap s = LongJmp (buf c) r s'
                   /\ mem s' !! exception_ptr c
                      = Some {| reason := r; error := err;
                                message := Some text |}
             | None => @throw_it H A r err fmt ap s = Undefined FreedBuffer s
             end).
  { intros A r err fmt ap. destruct (formatted fmt ap) as [text|] eqn:Hap.
    - rewrite (throw_it_unfold r err fmt ap text s Hap).
      exact (throw_exception_delivers
               {| reason := r; error := err; message := Some text |}
               (set_last_message (Some text) s) c prev Hs Hrun).
    - exact (throw_it_freed r err fmt ap s Hap). }
  split; [|split; [|split]].
  - intros A r Hr. unfold throw_reason.
    destruct (r =? RETURN_QUIT) eqn:Hq.
    + destruct (throw_exception_delivers (A:=A)
                  {| reason := r; error := 0; message := None |} s c prev
                  Hs Hrun) as (s' & E & Hm).
      eexists _, s'. split; [exact E|]. split; [exact Hm|]. auto.
    + destruct Hr as [-> | ->]; [rewrite Z.eqb_refl in Hq; discriminate|].
      rewrite Z.eqb_refl.
      destruct (throw_exception_delivers (A:=A)
                  {| reason := RETURN_ERROR; error := GENERIC_ERROR;
                     message := None |} s c prev Hs Hrun) as (s' & E & Hm).
      eexists _, s'. split; [exact E|]. split; [exact Hm|]. auto.
  - intros A err fmt ap. exact (Hit A RETURN_ERROR err fmt ap).
  - intros A fmt ap. exact (Hit A RETURN_QUIT NO_ERROR fmt ap).
  - intros A err fmt args. exact (Hit A RETURN_ERROR err fmt args).
Qed.






(** ** Nested catch invocations *)

Lemma run_level_unfold fuel l (body : M Z) s :
  run_level fuel l body s
  = match l with
    | By_catch_exceptions_with_msg u a g m =>
        (exception <- alloca ;;
         catch <- catcher_init u exception m ;;
         val <- catch_loop fuel catch body 0 ;;
         e <- load exception ;;
         (print_any_exception gdb_stderr None e ;;
          gdb_assert 467 "val >= 0" (0 <=? val) ;;
          gdb_assert 468 "exception.reason <= 0" (reason e <=? 0) ;;
          if reason e <? 0 then
            match g with
            | Some p =>
                match message e with
                | Some text =>
                    copy <- xstrdup text ;; store_char_ptr p (Block copy)
                | None => store_char_ptr p NULL
                end
            | None => ret tt
            end ;;
            ret (reason e)
          else ret val)) s
    | By_catch_exception u a m =>
        (exception <- alloca ;;
         catch <- catcher_init u exception m ;;
         val <- catch_loop fuel catch (body ;; ret tt) tt ;;
         e <- load exception ;;
         ret (reason e)) s
    | By_catch_errors a errstring m =>
        (exception <- alloca ;;
         catch <- catcher_init (uiout s) exception m ;;
         val <- catch_loop fuel catch body 0 ;;
         e <- load exception ;;
         (print_any_exception gdb_stderr errstring e ;;
          if reason e =? 0 then ret val else ret 0)) s
    | By_catch_command_errors arg from_tty m =>
        (exception <- alloca ;;
         catch <- catcher_init (uiout s) exception m ;;
         val <- catch_loop fuel catch (body ;; ret tt) tt ;;
         e <- load exception ;;
         (print_any_exception gdb_stderr None e ;;
          if reason e <? 0 then ret 0 else ret 1)) s
    end.
Proof.
  destruct l; try reflexivity.
  (* catch_exception: the record is read, returned, and its reason taken *)
  unfold run_level, catch_exception, bind.
  destruct (alloca s) as [p s1| | | |]; try reflexivity.
  destruct (catcher_init func_uiout p mask0 s1) as [c s2| | | |];
    try reflexivity.
  destruct (catch_loop fuel c _ () s2) as [v s3| | | |]; try reflexivity.
  destruct (load p s3); reflexivity.
Qed.

(** What a level does with a body that throws [e] to the level's frame. *)
Lemma run_level_throws fuel l (body : M Z) s e t r s2 :
  (2 <= fuel)%nat -> wf s ->
  body (entered (level_uiout l s) (level_mask l) s) = LongJmp t r s2 ->
  outcome_ok (A:=Z) (entered (level_uiout l s) (level_mask l) s)
    (LongJmp t r s2) ->
  mem s2 !! brk s = Some e ->
  (claims (level_mask l) e = false ->
   run_level fuel l body s = throw_exception e (restored s s2))
  /\ (claims (level_mask l) e = true -> reason e < 0 ->
      reason e = RETURN_QUIT \/ reason e = RETURN_ERROR ->
      exists s',
        run_level fuel l body s = Returns (claimed_value l e) s'
        /\ same_core (restored s s2) s').
Proof.
  intros Hfuel Hwf Hbody Hok He.
  assert (Hprint : forall prefix,
             reason e = RETURN_QUIT \/ reason e = RETURN_ERROR ->
             exists tr,
               print_any_exception gdb_stderr prefix e (restored s s2)
               = Returns tt (with_trace tr (restored s s2))).
  { intros prefix Hp. apply print_any_exception_returns. tauto. }
  rewrite run_level_unfold.
  destruct l as [u a g m | u a m | a errstring m | arg from_tty m];
    cbn [level_uiout level_mask claimed_value] in *.
  - rewrite (catch_frame_load fuel u m body 0 _ s Hfuel Hwf)
      by (rewrite Hbody; exact Hok).
    rewrite Hbody, He. split; intros Hc; rewrite Hc; [reflexivity|].
    intros Hneg Hvalid. destruct (Hprint None Hvalid) as [tr Etr].
    unfold bind at 1. rewrite Etr.
    unfold bind, gdb_assert. change (0 <=? 0) with true.
    assert (Hle : (reason e <=? 0) = true) by (apply Z.leb_le; lia).
    assert (Hlt : (reason e <? 0) = true) by (apply Z.ltb_lt; lia).
    rewrite Hle, Hlt. unfold ret at 1 2.
    destruct g as [p|]; [destruct (message e) as [text|]|];
      eexists; (split; [reflexivity|]); unfold same_core; cbn; auto.
  - assert (Hbody' : (body ;; ret tt) (entered u m s) = LongJmp t r s2)
      by (unfold bind; rewrite Hbody; reflexivity).
    rewrite (catch_frame_load fuel u m (body ;; ret tt) tt _ s Hfuel Hwf)
      by (rewrite Hbody'; exact Hok).
    rewrite Hbody', He. split; intros Hc; rewrite Hc; [reflexivity|].
    intros _ _. eexists. split; [reflexivity|]. apply same_core_refl.
  - rewrite (catch_frame_load fuel (uiout s) m body 0 _ s Hfuel Hwf)
      by (rewrite Hbody; exact Hok).
    rewrite Hbody, He. split; intros Hc; rewrite Hc; [reflexivity|].
    intros Hneg Hvalid. destruct (Hprint errstring Hvalid) as [tr Etr].
    unfold bind. rewrite Etr.
    assert (Hz : (reason e =? 0) = false) by (apply Z.eqb_neq; lia).
    rewrite Hz. eexists. split; [reflexivity|]. apply same_core_with_trace.
  - assert (Hbody' : (body ;; ret tt) (entered (uiout s) m s) = LongJmp t r s2)
      by (unfold bind; rewrite Hbody; reflexivity).
    rewrite (catch_frame_load fuel (uiout s) m (body ;; ret tt) tt _ s
               Hfuel Hwf)
      by (rewrite Hbody'; exact Hok).
    rewrite Hbody', He. split; intros Hc; rewrite Hc; [reflexivity|].
    intros Hneg Hvalid. destruct (Hprint None Hvalid) as [tr Etr].
    unfold bind. rewrite Etr.
    assert (Hlt : (reason e <? 0) = true) by (apply Z.ltb_lt; lia).
    rewrite Hlt. eexists. split; [reflexivity|]. apply same_core_with_trace.
Qed.


(** Through levels that do not claim it, a throw reaches the frame that was
    on top before the outermost of them was entered: each level lands the
    jump, pops its frame and throws the same exception again. *)
Lemma nest_throws fuel (inner : list level) e :
  (2 <= fuel)%nat ->
  Forall (fun l => claims (level_mask l) e = false) inner ->
  forall s c prev,
    wf s -> current_catcher s = c :: prev -> running c ->
    exists s',
      nest fuel inner (throw_exception e) s = LongJmp (buf c) (reason e) s'
      /\ outcome_ok (A:=Z) s (LongJmp (buf c) (reason e) s')
      /\ mem s' !! exception_ptr c = Some e.
Proof.
  intros Hfuel Hinner.
  induction Hinner as [|l ls Hl _ IH]; intros s c prev Hwf Hs Hrun;
    cbn [nest].
  - pose proof (outcome_ok_throw_exception (A:=Z) e s Hwf) as Hok.
    rewrite (throw_exception_running e s c prev Hs Hrun) in *.
    eexists. split; [reflexivity|]. split; [exact Hok|].
    cbn [mem set_mem]. apply lookup_insert_eq.
  - set (s1 := entered (level_uiout l s) (level_mask l) s).
    destruct (IH s1 _ _ (wf_entered _ _ s Hwf) eq_refl (or_introl eq_refl))
      as (s2 & Hbody & Hok & He).
    cbn [buf exception_ptr] in Hbody, Hok, He.
    destruct (run_level_throws fuel l _ s e _ _ s2 Hfuel Hwf Hbody Hok He)
      as [Hrelay _].
    rewrite (Hrelay Hl).
    apply body_throws in Hok. destruct Hok as (_ & _ & _ & _ & Hle & Hmem).
    assert (Hwf' : wf (restored s s2)) by (apply wf_restored; auto; lia).
    pose proof (outcome_ok_throw_exception (A:=Z) e _ Hwf') as Hok'.
    rewrite (throw_exception_running e (restored s s2) c prev Hs Hrun) in *.
    eexists. split; [reflexivity|]. split.
    + apply (outcome_ok_from s (restored s s2)); auto. cbn. lia.
    + cbn [mem set_mem]. apply lookup_insert_eq.
Qed.

(** C2.  For every sequence of nested catch invocations [inner] whose masks
    do not contain the reason of [e], inside an invocation [c] whose mask
    does, called in any state [s] (whatever catchers enclose it):
    - a throw goes first to the frame on top of the stack: it is marked
      aborting, the exception stored through its pointer, and the jump goes
      to its buffer;
    - a catch invocation that lands the jump and does not claim the
      exception pops its frame and throws the same exception again, from a
      state with the stack it was called with;
    - thrown inside all of [inner], the exception is claimed by [c]: [c]
      returns the value it returns for a claimed exception, with [e] in its
      slot; the stack of [s], [uiout], the cleanup chain, and every
      exception slot that existed in [s] are as in [s]: the catchers that
      enclose [c] see no change. *)
Theorem nested_throw_reaches_innermost_claiming (fuel : nat)
    (inner : list level) (c : level) (e : exception) (s : gdb) :
  (2 <= fuel)%nat -> wf s ->
  Forall (fun l => claims (level_mask l) e = false) inner ->
  claims (level_mask c) e = true ->
  reason e < 0 ->
  reason e = RETURN_QUIT \/ reason e = RETURN_ERROR ->
  (forall s0 top prev,
     current_catcher s0 = top :: prev ->
     state top = CATCHER_RUNNING \/ state top = CATCHER_RUNNING_1 ->
     exists s1,
       throw_exception (A:=Z) e s0 = LongJmp (buf top) (reason e) s1
       /\ current_catcher s1 = set_state CATCHER_ABORTING top :: prev
       /\ mem s1 !! exception_ptr top = Some e)
  /\ (forall l body s0 t r s2,
        wf s0 ->
        claims (level_mask l) e = false ->
        body (entered (level_uiout l s0) (level_mask l) s0) = LongJmp t r s2 ->
        outcome_ok (A:=Z) (entered (level_uiout l s0) (level_mask l) s0)
          (LongJmp t r s2) ->
        mem s2 !! brk s0 = Some e ->
        run_level fuel l body s0 = throw_exception e (restored s0 s2)
        /\ current_catcher (restored s0 s2) = current_catcher s0)
  /\ exists s',
       run_level fuel c (nest fuel inner (throw_exception e)) s
       = Returns (claimed_value c e) s'
       /\ current_catcher s' = current_catcher s
       /\ uiout s' = uiout s
       /\ cleanup_chain s' = cleanup_chain s
       /\ mem s' !! brk s = Some e
       /\ (forall p, (p < brk s)%nat -> mem s' !! p = mem s !! p).
Proof.
  intros Hfuel Hwf Hinner Hclaims Hneg Hvalid. split; [|split].
  - intros s0 top prev Hs0 Hrun. eexists. split.
    + apply (throw_exception_running e s0 top prev Hs0 Hrun).
    + split; [reflexivity|]. cbn [mem set_mem]. apply lookup_insert_eq.
  - intros l body s0 t r s2 Hwf0 Hl Hbody Hok He. split; [|reflexivity].
    destruct (run_level_throws fuel l body s0 e t r s2 Hfuel Hwf0 Hbody Hok He)
      as [Hrelay _].
    exact (Hrelay Hl).
  - set (s1 := entered (level_uiout c s) (level_mask c) s).
    destruct (nest_throws fuel inner e Hfuel Hinner s1 _ _
                (wf_entered _ _ s Hwf) eq_refl (or_introl eq_refl))
      as (s2 & Hbody & Hok & He).
    cbn [buf exception_ptr] in Hbody, Hok, He.
    destruct (run_level_throws fuel c _ s e _ _ s2 Hfuel Hwf Hbody Hok He)
      as [_ Hclaimed].
    destruct (Hclaimed Hclaims Hneg Hvalid)
      as (s' & Hrun & Hst & Hmem & Hbrk & Hu & Hch).
    apply body_throws in Hok. destruct Hok as (_ & _ & _ & _ & _ & Hbelow).
    exists s'. split; [exact Hrun|].
    cbn [restored current_catcher mem uiout cleanup_chain set_uiout
         set_cleanup_chain set_current_catcher] in Hst, Hmem, Hu, Hch.
    repeat split; auto.
    + rewrite Hmem. exact He.
    + intros p Hp. rewrite Hmem. apply Hbelow, Hp.
Qed.

End Verification.

(** * The claims on the worked examples *)

Section Examples.

#[local] Existing Instance gdb_header.

(** C1 at a frame in [CATCHER_RUNNING_1] whose protected code asks for
    [CATCH_ITER_1]: back to [CATCHER_RUNNING], and the loop is told to
    stop. *)
Lemma catcher_state_machine_table_witness :
  current_catcher (inside CATCHER_RUNNING_1 RETURN_MASK_ALL exception_none)
  = [frame CATCHER_RUNNING_1 RETURN_MASK_ALL]
  /\ catcher_state_machine CATCH_ITER_1
       (inside CATCHER_RUNNING_1 RETURN_MASK_ALL exception_none)
     = Returns 0 (inside CATCHER_RUNNING RETURN_MASK_ALL exception_none).
Proof.
  split; [reflexivity|].
  exact (proj1 (proj2 (proj1
    (catcher_state_machine_table (H:=gdb_header)
       (inside CATCHER_RUNNING_1 RETURN_MASK_ALL exception_none)
       (frame CATCHER_RUNNING_1 RETURN_MASK_ALL) [] eq_refl)))).
Defined.


Lemma wf_idle : wf idle.
Proof. constructor. Qed.

(** C2 on Scenario B, continued outwards: a quit thrown inside two nested
    [catch_errors] that accept errors only passes both and is claimed by an
    enclosing [catch_exceptions_with_msg] that accepts everything, which
    returns [RETURN_QUIT]. *)
Lemma nested_throw_reaches_innermost_claiming_witness :
  let quit := {| reason := RETURN_QUIT; error := 0; message := None |} in
  let inner := [By_catch_errors 0 None RETURN_MASK_ERROR;
                By_catch_errors 0 None RETURN_MASK_ERROR] in
  let c := By_catch_exceptions_with_msg 9 0 None RETURN_MASK_ALL in
  ((2 <= 2)%nat /\ wf idle
   /\ Forall (fun l => claims (level_mask l) quit = false) inner
   /\ claims (level_mask c) quit = true
   /\ reason quit < 0
   /\ (reason quit = RETURN_QUIT \/ reason quit = RETURN_ERROR))
  /\ exists s',
       run_level 2 c (nest 2 inner (throw_exception quit)) idle
       = Returns RETURN_QUIT s'
       /\ current_catcher s' = []
       /\ uiout s' = 7
       /\ cleanup_chain s' = [100; 101]
       /\ mem s' !! 0%nat = Some quit.
Proof.
  intros quit inner c.
  assert (Hinner : Forall (fun l => claims (level_mask l) quit = false) inner)
    by (repeat constructor).
  split.
  { split; [lia|]. split; [exact wf_idle|]. split; [exact Hinner|].
    split; [reflexivity|]. split; [reflexivity|]. left; reflexivity. }
  destruct (nested_throw_reaches_innermost_claiming 2 inner c quit idle
              (le_n 2) wf_idle Hinner eq_refl eq_refl (or_introl eq_refl))
    as (_ & _ & s' & Hrun & Hst & Hu & Hch & Hm & _).
  exists s'. repeat split; assumption.
Defined.


(** C4 on Scenario A: [catch_errors] claims an error thrown by its
    operation and returns with the stack it was called with. *)
Lemma catch_primitives_restore_stack_witness :
  ((2 <= 2)%nat /\ wf idle
   /\ well_nested (throw_error (A:=Z) GENERIC_ERROR "bad value" []))
  /\ exists s',
       catch_errors 2 (fun _ => throw_error GENERIC_ERROR "bad value" [])
         0 None RETURN_MASK_ALL idle = Returns 0 s'
       /\ current_catcher s' = current_catcher idle.
Proof.
  split.
  { split; [lia|]. split; [exact wf_idle|]. apply well_nested_throw_error. }
  pose proof (proj1 (proj2 (proj2 (proj2
    (catch_primitives_restore_stack 2 idle (le_n 2) wf_idle))))
      (fun _ => throw_error GENERIC_ERROR "bad value" []) 0 None
      RETURN_MASK_ALL (well_nested_throw_error _ _ _)) as Hkept.
  destruct (catch_errors 2 _ 0 None RETURN_MASK_ALL idle)
    as [v s'| | | |] eqn:E; try (vm_compute in E; discriminate E).
  assert (Hv : v = 0)
    by (vm_compute in E; injection E; intros _ Hv; symmetry; exact Hv).
  subst v. exists s'. split; [reflexivity | exact Hkept].
Defined.

(** C9 on Scenario D: [catch_exceptions_with_msg] overrides [uiout] with 9
    for an operation that throws; when it returns, [uiout] is 7 again and
    the two pending cleanups are back. *)
Lemma catch_primitives_restore_sink_and_cleanups_witness :
  ((2 <= 2)%nat /\ wf idle
   /\ well_nested (throw_error (A:=Z) GENERIC_ERROR "bad value" []))
  /\ exists s',
       catch_exceptions_with_msg 2 9
         (fun _ _ => throw_error GENERIC_ERROR "bad value" [])
         0 None RETURN_MASK_ALL idle = Returns RETURN_ERROR s'
       /\ uiout s' = 7 /\ cleanup_chain s' = [100; 101].
Proof.
  split.
  { split; [lia|]. split; [exact wf_idle|]. apply well_nested_throw_error. }
  pose proof (proj1 (proj2 (proj2 (proj2
    (catch_primitives_restore_sink_and_cleanups 2 idle (le_n 2) wf_idle))))
      9 (fun _ _ => throw_error GENERIC_ERROR "bad value" []) 0 None
      RETURN_MASK_ALL (well_nested_throw_error _ _ _)) as Hkept.
  destruct (catch_exceptions_with_msg 2 9 _ 0 None RETURN_MASK_ALL idle)
    as [v s'| | | |] eqn:E; try (vm_compute in E; discriminate E).
  assert (Hv : v = RETURN_ERROR)
    by (vm_compute in E; injection E; intros _ Hv; symmetry; exact Hv).
  subst v. exists s'. split; [reflexivity | exact Hkept].
Defined.





(** C7 where the code has it: [catcher_init] clears the slot of the
    outermost catch; inside a catch primitive, [throw_reason (RETURN_QUIT)]
    delivers an exception with that reason and no message, [throw_error]
    one with [RETURN_ERROR] and the message; and [throw_error] with the
    old message as argument builds no exception. *)
Lemma exceptions_built_witness :
  let s := inside CATCHER_RUNNING RETURN_MASK_ALL exception_none in
  (current_catcher s = [frame CATCHER_RUNNING RETURN_MASK_ALL]
   /\ (state (frame CATCHER_RUNNING RETURN_MASK_ALL) = CATCHER_RUNNING
       \/ state (frame CATCHER_RUNNING RETURN_MASK_ALL) = CATCHER_RUNNING_1))
  /\ (exists catch s',
        catcher_init 9 0%nat RETURN_MASK_ALL idle = Returns catch s'
        /\ mem s' !! 0%nat = Some exception_none)
  /\ (exists e s',
        throw_reason (A:=Z) RETURN_QUIT s = LongJmp 1%nat RETURN_QUIT s'
        /\ mem s' !! 0%nat = Some e
        /\ reason e = RETURN_QUIT /\ message e = None)
  /\ (exists s',
        throw_error (A:=Z) GENERIC_ERROR "bad value" [] s
        = LongJmp 1%nat RETURN_ERROR s'
        /\ mem s' !! 0%nat
           = Some {| reason := RETURN_ERROR; error := GENERIC_ERROR;
                     message := Some "bad value" |})
  /\ throw_error (A:=Z) GENERIC_ERROR "again: %s" [Str_last_message] s
     = Undefined FreedBuffer s.
Proof.
  intros s. split; [split; [reflexivity | left; reflexivity]|].
  split; [exact (proj1 (proj2 (exceptions_built idle)) 9 0%nat RETURN_MASK_ALL)|].
  destruct (proj2 (proj2 (exceptions_built s))
              (frame CATCHER_RUNNING RETURN_MASK_ALL) []
              eq_refl (or_introl eq_refl))
    as (Hreason & _ & _ & Herror).
  split; [|split].
  - exact (Hreason Z RETURN_QUIT (or_introl eq_refl)).
  - exact (Herror Z GENERIC_ERROR "bad value" []).
  - exact (Herror Z GENERIC_ERROR "again: %s" [Str_last_message]).
Defined.

(** C7 as stated fails: [catch_exception] around [throw_reason
    (RETURN_QUIT)] returns an exception whose reason is not 0 and whose
    message is null. *)
Lemma quit_exception_has_no_message :
  exists e s',
    catch_exception 2 9 (fun _ _ => throw_reason RETURN_QUIT) 0
      RETURN_MASK_ALL idle = Returns e s'
    /\ reason e <> 0 /\ message e = None.
Proof.
  do 2 eexists. split; [vm_compute; reflexivity|].
  split; [discriminate | reflexivity].
Qed.

(** C8 where the code has it: with no catcher installed, [throw_error]
    saves the message, does the work of a throw, and dereferences the null
    [current_catcher]. *)
Lemma throw_without_catcher_witness :
  current_catcher idle = []
  /\ throw_error (A:=unit) GENERIC_ERROR "bad value" [] idle
     = Undefined NullCatcher
         (throw_prelude (set_last_message (Some "bad value") idle)).
Proof.
  split; [reflexivity|].
  exact (proj2 (proj2 (proj2 (proj2
    (throw_without_catcher (A:=unit) idle eq_refl))
      GENERIC_ERROR "bad value" []))).
Defined.

(** C8 as stated fails: with no catcher installed, no throw of an error
    ends in [internal_error]; the behaviour is undefined. *)
Lemma throw_without_catcher_is_not_internal_error :
  (forall line msg s',
     throw_error (A:=unit) GENERIC_ERROR "bad value" [] idle
     <> InternalError line msg s')
  /\ (forall line msg s',
        throw_exception (A:=unit)
          {| reason := RETURN_QUIT; error := NO_ERROR; message := None |} idle
        <> InternalError line msg s')
  /\ exists s',
       throw_error (A:=unit) GENERIC_ERROR "bad value" [] idle
       = Undefined NullCatcher s'.
Proof.
  split; [|split].
  - intros line msg s'. vm_compute. discriminate.
  - intros line msg s'. vm_compute. discriminate.
  - eexists. vm_compute. reflexivity.
Qed.

End Examples.

(** * More of the file *)

Section MoreOfTheFile.

Context {H : exceptions_h}.


(** ** The line loop of [print_exception] *)

Lemma append_nil_r (a : string) : String.append a "" = a.
Proof.
  induction a as [|ch a IH]; [reflexivity|].
  change (String ch (String.append a "") = String ch a). rewrite IH.
  reflexivity.
Qed.

Lemma append_assoc (a b c : string) :
  String.append (String.append a b) c = String.append a (String.append b c).
Proof.
  induction a as [|ch a IH]; [reflexivity|].
  change (String ch (String.append (String.append a b) c)
          = String ch (String.append a (String.append b c))).
  rewrite IH. reflexivity.
Qed.

Lemma no_newline_append (a b : string) :
  no_newline (String.append a b) = no_newline a && no_newline b.
Proof.
  induction a as [|ch a IH]; [reflexivity|].
  change (negb (Ascii.eqb ch newline) && no_newline (String.append a b)
          = negb (Ascii.eqb ch newline) && no_newline a && no_newline b).
  rewrite IH. apply andb_assoc.
Qed.

Lemma all_written_app (es1 es2 : list event) :
  all_written (es1 ++ es2)
  = String.append (all_written es1) (all_written es2).
Proof.
  induction es1 as [|ev es1 IH]; [reflexivity|].
  cbn [all_written app]. rewrite IH, append_assoc. reflexivity.
Qed.

Lemma print_exception_lines_shape (file : ui_file) (rest start : string) :
  no_newline start = true ->
  exists lines last,
    print_exception_lines file start rest
    = map (Call_ui_file_write file) lines ++ [Call_fputs_filtered last file]
    /\ Forall is_line lines
    /\ no_newline last = true
    /\ all_written (print_exception_lines file start rest)
       = String.append start rest.
Proof.
  revert start. induction rest as [|ch rest IH]; intros start Hstart.
  - exists [], start. cbn [print_exception_lines map app all_written written].
    repeat split; auto.
  - cbn [print_exception_lines].
    destruct (Ascii.eqb ch newline) eqn:Hch.
    + apply Ascii.eqb_eq in Hch. subst ch.
      destruct (IH "" eq_refl) as (lines & last & E & Hlines & Hlast & Hall).
      exists (String.append start (String newline "") :: lines), last.
      rewrite E. split; [reflexivity|]. split.
      { constructor; [exists start; auto | exact Hlines]. }
      split; [exact Hlast|].
      rewrite <- E. cbn [all_written written]. rewrite Hall, append_assoc.
      reflexivity.
    + assert (Hstart' : no_newline (String.append start (String ch "")) = true).
      { rewrite no_newline_append, Hstart. cbn [no_newline andb].
        rewrite Hch. reflexivity. }
      destruct (IH _ Hstart') as (lines & last & E & Hlines & Hlast & Hall).
      exists lines, last. split; [exact E|]. split; [exact Hlines|].
      split; [exact Hlast|]. rewrite Hall, append_assoc. reflexivity.
Qed.

(** X1.  The line loop of [print_exception] writes the message unchanged
    and whole, one line at a time: every line that ends in a newline goes
    to [ui_file_write] with its newline, what follows the last newline
    (possibly nothing) goes to [fputs_filtered] as the last call, and the
    texts written, put together in order, are the message. *)
Theorem print_exception_lines_round_trip (file : ui_file) (msg : string) :
  exists lines last,
    print_exception_lines file "" msg
    = map (Call_ui_file_write file) lines ++ [Call_fputs_filtered last file]
    /\ Forall is_line lines
    /\ no_newline last = true
    /\ all_written (print_exception_lines file "" msg) = msg.
Proof.
  destruct (print_exception_lines_shape file msg "" eq_refl)
    as (lines & last & E & Hlines & Hlast & Hall).
  exists lines, last. auto.
Qed.


(** ** The printers *)

Lemma log_with_trace ev tr s :
  log ev (with_trace tr s) = with_trace (tr ++ [ev]) s.
Proof. reflexivity. Qed.

Lemma log_eq ev s : log ev s = with_trace (trace s ++ [ev]) s.
Proof. reflexivity. Qed.

Lemma with_trace_twice tr1 tr2 s :
  with_trace tr2 (with_trace tr1 s) = with_trace tr2 s.
Proof. reflexivity. Qed.

Lemma print_exception_eq file e s :
  print_exception file e s
  = if has_annotation e
    then Returns tt
           (with_trace (trace s ++ message_calls file e ++ [annotation e]) s)
    else InternalError 304 "Bad switch."
           (with_trace (trace s ++ message_calls file e) s).
Proof.
  unfold print_exception, message_calls, has_annotation, annotation, bind.
  assert (Hmsg : match message e with
                 | Some msg => calls (print_exception_lines file "" msg)
                 | None => ret tt
                 end s
                 = Returns tt
                     (with_trace
                        (trace s ++ match message e with
                                    | Some msg =>
                                        print_exception_lines file "" msg
                                    | None => []
                                    end) s)).
  { destruct (message e).
    - apply calls_eq.
    - rewrite app_nil_r, with_trace_same. reflexivity. }
  rewrite Hmsg. unfold call, modify, internal_error.
  destruct (reason e =? RETURN_QUIT); cbn [orb].
  - rewrite !log_with_trace, <- !app_assoc. reflexivity.
  - destruct (reason e =? RETURN_ERROR);
      rewrite !log_with_trace, <- ?app_assoc; reflexivity.
Qed.

Lemma print_any_exception_eq (file : ui_file) (prefix : option string)
    (e : exception) (s : gdb) :
  print_any_exception file prefix e s
  = if pending_with_message e
    then
      let out :=
        trace s ++ flush_calls
        ++ match prefix with
           | Some (String ch rest) =>
               [Call_fputs_filtered (String ch rest) file]
           | _ => []
           end
        ++ message_calls file e in
      if has_annotation e
      then Returns tt (with_trace (out ++ [annotation e]) s)
      else InternalError 304 "Bad switch." (with_trace out s)
    else Returns tt s.
Proof.
  unfold print_any_exception.
  destruct (pending_with_message e); [|reflexivity].
  unfold bind at 1 2 3 4 5. unfold call, modify.
  rewrite (log_eq Call_target_terminal_ours s), !log_with_trace.
  assert (Hpre : forall tr,
             match prefix with
             | Some (String ch rest) =>
                 fun s => Returns tt
                            (log (Call_fputs_filtered (String ch rest) file) s)
             | _ => ret tt
             end (with_trace tr s)
             = Returns tt
                 (with_trace
                    (tr ++ match prefix with
                           | Some (String ch rest) =>
                               [Call_fputs_filtered (String ch rest) file]
                           | _ => []
                           end) s)).
  { intros tr. destruct prefix as [[|ch rest]|];
      try (rewrite app_nil_r; reflexivity).
    reflexivity. }
  rewrite Hpre, print_exception_eq. cbv zeta.
  rewrite !with_trace_twice. cbn [trace with_trace]. unfold flush_calls.
  destruct (has_annotation e); rewrite <- ?app_assoc; reflexivity.
Qed.

(** X2.  [print_any_exception] prints only an exception with a negative
    reason and a message; otherwise it returns and nothing has changed.
    When it prints, it makes, in this order: the four calls that flush
    pending output and open the error annotation, [fputs_filtered] of the
    prefix when the prefix is neither null nor empty, the calls for the
    message, and then [annotate_quit] for [RETURN_QUIT] or [annotate_error]
    for [RETURN_ERROR].  For any other reason the message has been written
    when the call ends in [internal_error] ("Bad switch.").  Nothing but the
    log of calls changes. *)
Theorem print_any_exception_output (file : ui_file) (prefix : option string)
    (e : exception) (s : gdb) :
  print_any_exception file prefix e s
  = if pending_with_message e
    then
      let out :=
        trace s ++ flush_calls
        ++ match prefix with
           | Some (String ch rest) =>
               [Call_fputs_filtered (String ch rest) file]
           | _ => []
           end
        ++ message_calls file e in
      if has_annotation e
      then Returns tt (with_trace (out ++ [annotation e]) s)
      else InternalError 304 "Bad switch." (with_trace out s)
    else Returns tt s.
Proof.
  unfold print_any_exception.
  destruct (pending_with_message e); [|reflexivity].
  unfold bind at 1 2 3 4 5. unfold call, modify.
  rewrite (log_eq Call_target_terminal_ours s), !log_with_trace.
  assert (Hpre : forall tr,
             match prefix with
             | Some (String ch rest) =>
                 fun s => Returns tt
                            (log (Call_fputs_filtered (String ch rest) file) s)
             | _ => ret tt
             end (with_trace tr s)
             = Returns tt
                 (with_trace
                    (tr ++ match prefix with
                           | Some (String ch rest) =>
                               [Call_fputs_filtered (String ch rest) file]
                           | _ => []
                           end) s)).
  { intros tr. destruct prefix as [[|ch rest]|];
      try (rewrite app_nil_r; reflexivity).
    reflexivity. }
  rewrite Hpre, print_exception_eq. cbv zeta.
  rewrite !with_trace_twice. cbn [trace with_trace]. unfold flush_calls.
  destruct (has_annotation e); rewrite <- ?app_assoc; reflexivity.
Qed.

Lemma print_flush_eq s :
  print_flush s
  = Returns tt
      (with_trace
         (trace s
          ++ (if deprecated_error_begin_hook s
              then [Call_deprecated_error_begin_hook] else [])
          ++ flush_calls) s).
Proof.
  unfold print_flush, bind, call, modify, ret, flush_calls.
  destruct (deprecated_error_begin_hook s) eqn:Hhook.
  - rewrite (log_eq Call_deprecated_error_begin_hook s), !log_with_trace,
      <- !app_assoc. reflexivity.
  - rewrite (log_eq Call_target_terminal_ours s), !log_with_trace,
      <- !app_assoc. reflexivity.
Qed.

(** X3.  [exception_print] and [exception_fprintf] print under the same
    condition as [print_any_exception] and make the same calls, with two
    differences: they call [deprecated_error_begin_hook] first when the
    hook is set, and [exception_fprintf] writes its prefix with
    [vfprintf_filtered], whatever the prefix is.  Hence, when the hook is
    not set, [exception_print] is [print_any_exception] with a null
    prefix. *)
Theorem exception_print_output (file : ui_file) (e : exception)
    (prefix : string) (args : list string) (s : gdb) :
  let hook :=
    if deprecated_error_begin_hook s
    then [Call_deprecated_error_begin_hook] else [] in
  exception_print file e s
  = (if pending_with_message e
     then
       let out := trace s ++ hook ++ flush_calls ++ message_calls file e in
       if has_annotation e
       then Returns tt (with_trace (out ++ [annotation e]) s)
       else InternalError 304 "Bad switch." (with_trace out s)
     else Returns tt s)
  /\ exception_fprintf file e prefix args s
     = (if pending_with_message e
        then
          let out :=
            trace s ++ hook ++ flush_calls
            ++ [Call_vfprintf_filtered file prefix args]
            ++ message_calls file e in
          if has_annotation e
          then Returns tt (with_trace (out ++ [annotation e]) s)
          else InternalError 304 "Bad switch." (with_trace out s)
        else Returns tt s)
  /\ (deprecated_error_begin_hook s = false ->
      exception_print file e s = print_any_exception file None e s).
Proof.
  intros hook. subst hook.
  assert (Hprint :
            exception_print file e s
            = (if pending_with_message e
               then
                 let out :=
                   trace s
                   ++ (if deprecated_error_begin_hook s
                       then [Call_deprecated_error_begin_hook] else [])
                   ++ flush_calls ++ message_calls file e in
                 if has_annotation e
                 then Returns tt (with_trace (out ++ [annotation e]) s)
                 else InternalError 304 "Bad switch." (with_trace out s)
               else Returns tt s)).
  { unfold exception_print.
    destruct (pending_with_message e); [|reflexivity].
    unfold bind. rewrite print_flush_eq, print_exception_eq.
    rewrite !with_trace_twice. cbn [with_trace trace]. cbv zeta.
    destruct (has_annotation e); rewrite <- ?app_assoc; reflexivity. }
  split; [exact Hprint|]. split.
  - unfold exception_fprintf.
    destruct (pending_with_message e); [|reflexivity].
    unfold bind at 1. rewrite print_flush_eq.
    unfold bind, call, modify. rewrite log_with_trace, print_exception_eq.
    rewrite !with_trace_twice. cbn [with_trace trace]. cbv zeta.
    destruct (has_annotation e); rewrite <- ?app_assoc; reflexivity.
  - intros Hhook. rewrite Hprint, print_any_exception_eq, Hhook.
    reflexivity.
Qed.


(** ** The throw entry points *)

Lemma throw_it_no_return {A} r err fmt ap s (a : A) s' :
  @throw_it H A r err fmt ap s <> Returns a s'.
Proof.
  destruct (formatted fmt ap) as [text|] eqn:Hap.
  - rewrite (throw_it_unfold r err fmt ap text s Hap).
    apply throw_exception_no_return.
  - rewrite (throw_it_freed r err fmt ap s Hap). discriminate.
Qed.

(** X4.  [throw_reason], [throw_verror], [throw_vfatal] and [throw_error]
    never return to their caller, in any state and whatever their
    arguments: each ends in a jump, in [internal_error], in the
    dereference of a null [current_catcher] or in the read of a released
    buffer. *)
Theorem throw_entry_points_do_not_return {A} (s : gdb) (a : A) (s' : gdb) :
  (forall r, @throw_reason H A r s <> Returns a s')
  /\ (forall err fmt ap, @throw_verror H A err fmt ap s <> Returns a s')
  /\ (forall fmt ap, @throw_vfatal H A fmt ap s <> Returns a s')
  /\ (forall err fmt args, @throw_error H A err fmt args s <> Returns a s').
Proof.
  split; [|split; [|split]].
  - intros r. unfold throw_reason.
    destruct (r =? RETURN_QUIT); [apply throw_exception_no_return|].
    destruct (r =? RETURN_ERROR); [apply throw_exception_no_return|].
    discriminate.
  - intros err fmt ap. exact (throw_it_no_return RETURN_ERROR err fmt ap s a s').
  - intros fmt ap. exact (throw_it_no_return RETURN_QUIT NO_ERROR fmt ap s a s').
  - intros err fmt args.
    exact (throw_it_no_return RETURN_ERROR err fmt args s a s').
Qed.

Lemma throw_prelude_last_message s :
  last_message (throw_prelude s) = last_message s.
Proof. unfold throw_prelude. repeat case_match; reflexivity. Qed.

Lemma throw_exception_last_message {A} e s s' :
  outcome_state (@throw_exception H A e s) = Some s' ->
  last_message s' = last_message s.
Proof.
  destruct (current_catcher s) as [|c prev] eqn:Hs.
  - rewrite throw_exception_empty by assumption. intros [= <-].
    apply throw_prelude_last_message.
  - destruct (running_dec c) as [Hr|Hr].
    + rewrite (throw_exception_running _ _ _ _ Hs Hr). intros [= <-].
      cbn [last_message set_mem set_current_catcher].
      apply throw_prelude_last_message.
    + destruct (throw_exception_not_running (A:=A) e s c prev Hs Hr) as [l ->].
      intros [= <-]. apply throw_prelude_last_message.
Qed.

(** X5.  The last-message buffer.  A throw with a format ([throw_verror],
    [throw_vfatal], [throw_error]) whose format and arguments lie outside
    the buffer leaves the formatted text in [last_message], whatever was
    there and however the throw ends, and the exception it delivers to a
    running frame carries that same text.  With a format or an argument
    that points into the buffer, such as the message of an exception caught
    earlier, the behaviour is undefined: [throw_it] releases the buffer
    before the formatter reads them.  [throw_exception] and [throw_reason]
    leave [last_message] as it was. *)
Theorem last_message_after_throw {A} (s s' : gdb) :
  (forall err fmt ap text,
     formatted fmt ap = Some text ->
     outcome_state (@throw_verror H A err fmt ap s) = Some s' ->
     last_message s' = Some text)
  /\ (forall fmt ap text,
        formatted fmt ap = Some text ->
        outcome_state (@throw_vfatal H A fmt ap s) = Some s' ->
        last_message s' = Some text)
  /\ (forall err fmt args text,
        formatted fmt args = Some text ->
        outcome_state (@throw_error H A err fmt args s) = Some s' ->
        last_message s' = Some text)
  /\ (forall err fmt args text c prev,
        formatted fmt args = Some text ->
        current_catcher s = c :: prev ->
        state c = CATCHER_RUNNING \/ state c = CATCHER_RUNNING_1 ->
        outcome_state (@throw_error H A err fmt args s) = Some s' ->
        exists e, mem s' !! exception_ptr c = Some e
                  /\ message e = last_message s')
  /\ (forall err fmt ap,
        formatted fmt ap = None ->
        @throw_verror H A err fmt ap s = Undefined FreedBuffer s
        /\ @throw_vfatal H A fmt ap s = Undefined FreedBuffer s
        /\ @throw_error H A err fmt ap s = Undefined FreedBuffer s)
  /\ (forall e,
        outcome_state (@throw_exception H A e s) = Some s' ->
        last_message s' = last_message s)
  /\ (forall r,
        outcome_state (@throw_reason H A r s) = Some s' ->
        last_message s' = last_message s).
Proof.
  assert (Hit : forall r err fmt ap text,
             formatted fmt ap = Some text ->
             outcome_state (@throw_it H A r err fmt ap s) = Some s' ->
             last_message s' = Some text).
  { intros r err fmt ap text Hap.
    rewrite (throw_it_unfold r err fmt ap text s Hap). intros Hout.
    apply throw_exception_last_message in Hout. exact Hout. }
  split; [intros err fmt ap; exact (Hit RETURN_ERROR err fmt ap)|].
  split; [intros fmt ap; exact (Hit RETURN_QUIT NO_ERROR fmt ap)|].
  split; [intros err fmt args; exact (Hit RETURN_ERROR err fmt args)|].
  split; [|split; [|split]].
  - intros err fmt args text c prev Hap Hs Hrun Hout.
    revert Hout. unfold throw_error.
    rewrite (throw_it_unfold RETURN_ERROR err fmt args text s Hap).
    rewrite (throw_exception_running _
               (set_last_message (Some text) s) c prev Hs Hrun).
    intros [= <-].
    eexists. split; [cbn [mem set_mem]; apply lookup_insert_eq|].
    cbn [message last_message set_mem set_current_catcher].
    rewrite throw_prelude_last_message. reflexivity.
  - intros err fmt ap Hap.
    split; [exact (throw_it_freed RETURN_ERROR err fmt ap s Hap)|].
    split; [exact (throw_it_freed RETURN_QUIT NO_ERROR fmt ap s Hap)|].
    exact (throw_it_freed RETURN_ERROR err fmt ap s Hap).
  - intros e. apply throw_exception_last_message.
  - intros r. unfold throw_reason.
    destruct (r =? RETURN_QUIT); [apply throw_exception_last_message|].
    destruct (r =? RETURN_ERROR); [apply throw_exception_last_message|].
    intros [= <-]. reflexivity.
Qed.

(** X6.  A throw that finds the frame on top in [CATCHER_CREATED] or in
    [CATCHER_ABORTING] is lost: the flags are cleared and the cleanups run
    as for every throw, then the state machine refuses [CATCH_THROWING]
    with [internal_error] ("bad state"); the stack is as it was and the
    exception has not been stored in the frame's slot. *)
Theorem throw_on_frame_not_running {A} (e : exception) (s : gdb)
    (c : catcher) (prev : list catcher) :
  current_catcher s = c :: prev ->
  state c = CATCHER_CREATED \/ state c = CATCHER_ABORTING ->
  @throw_exception H A e s
  = InternalError (if state c is CATCHER_CREATED then 148 else 205)%nat
      "bad state" (throw_prelude s)
  /\ current_catcher (throw_prelude s) = c :: prev
  /\ mem (throw_prelude s) = mem s
  /\ cleanup_chain (throw_prelude s) = []
  /\ trace (throw_prelude s) = trace s ++ throw_calls s.
Proof.
  intros Hs Hst. split.
  - rewrite throw_exception_unfold.
    unfold bind, catcher_state_machine, catcher_state_machine_with.
    rewrite throw_prelude_catchers, Hs.
    destruct Hst as [-> | ->]; reflexivity.
  - rewrite throw_prelude_catchers, throw_prelude_mem,
      throw_prelude_cleanup_chain, throw_prelude_trace. auto.
Qed.


(** ** [catch_exception] and [catch_command_errors] *)

(** X7.  [catch_exception], around an operation that keeps to the stack
    discipline, returns the no-exception record when the operation
    completes, whatever an earlier use had left in memory, and the
    exception itself, with its reason, kind and message, when the operation
    throws one the mask claims; an exception the mask does not claim is
    thrown again.  It prints nothing: the log of calls is the one the
    operation left. *)
Theorem catch_exception_result (fuel : nat) (u : ui_out)
    (func : catch_exception_ftype) (args : Z) (m : Z) (s : gdb) :
  (2 <= fuel)%nat -> wf s -> well_nested (func u args) ->
  let result := catch_exception fuel u func args m s in
  match func u args (entered u m s) with
  | Returns _ s2 =>
      result = Returns exception_none (restored s s2)
      /\ trace (restored s s2) = trace s2
  | LongJmp _ _ s2 =>
      exists e,
        mem s2 !! brk s = Some e
        /\ result = (if claims m e then Returns e (restored s s2)
                     else throw_exception e (restored s s2))
        /\ trace (restored s s2) = trace s2
  | _ => True
  end.
Proof.
  intros Hfuel Hwf Hbody result. subst result.
  pose proof (Hbody _ (wf_entered u m s Hwf)) as Hok.
  rewrite catch_exception_unfold.
  rewrite (catch_frame_load fuel u m (func u args) tt _ s Hfuel Hwf Hok).
  destruct (func u args (entered u m s)) as [v s2|t r s2|l msg s2|w s2|];
    try exact I.
  - split; reflexivity.
  - apply body_throws in Hok. destruct Hok as (e & He & _).
    exists e. rewrite He. split; [reflexivity|]. split; [|reflexivity].
    destruct (claims m e); reflexivity.
Qed.


(** X9.  The loop of the catch primitives ends: around an operation that
    keeps to the stack discipline, each of the four primitives evaluates
    the loop condition twice and runs the operation once, so that with two
    units of fuel or more it does not run out of fuel, and more fuel does
    not change its outcome. *)
Theorem catch_primitives_terminate (fuel fuel' : nat) (s : gdb) :
  (2 <= fuel)%nat -> (2 <= fuel')%nat -> wf s ->
  (forall u func args m,
     well_nested (func u args) ->
     catch_exception fuel u func args m s <> OutOfFuel
     /\ catch_exception fuel u func args m s
        = catch_exception fuel' u func args m s)
  /\ (forall u func args gdberrmsg m,
        well_nested (func u args) ->
        catch_exceptions_with_msg fuel u func args gdberrmsg m s <> OutOfFuel
        /\ catch_exceptions_with_msg fuel u func args gdberrmsg m s
           = catch_exceptions_with_msg fuel' u func args gdberrmsg m s)
  /\ (forall func args errstring m,
        well_nested (func args) ->
        catch_errors fuel func args errstring m s <> OutOfFuel
        /\ catch_errors fuel func args errstring m s
           = catch_errors fuel' func args errstring m s)
  /\ (forall command arg from_tty m,
        well_nested (command arg from_tty) ->
        catch_command_errors fuel command arg from_tty m s <> OutOfFuel
        /\ catch_command_errors fuel command arg from_tty m s
           = catch_command_errors fuel' command arg from_tty m s).
Proof.
  intros Hfuel Hfuel' Hwf.
  assert (Hnot : forall A (r : result A), outcome_ok s r -> r <> OutOfFuel).
  { intros A r Hok ->. exact Hok. }
  split; [|split; [|split]].
  - intros u func args m Hb. split.
    + apply Hnot, well_nested_catch_exception; auto.
    + rewrite !catch_exception_unfold.
      apply (catch_frame_fuel fuel fuel' u m (func u args) tt
               (fun exception val => e <- load exception ;; ret e) s);
        auto using wf_entered.
  - intros u func args gdberrmsg m Hb. split.
    + apply Hnot, well_nested_catch_exceptions_with_msg; auto.
    + rewrite !catch_exceptions_with_msg_unfold.
      apply (catch_frame_fuel fuel fuel' u m (func u args) 0
               (fun exception val => e <- load exception ;; _) s);
        auto using wf_entered.
  - intros func args errstring m Hb. split.
    + apply Hnot, well_nested_catch_errors; auto.
    + rewrite !catch_errors_unfold.
      apply (catch_frame_fuel fuel fuel' (uiout s) m (func args) 0
               (fun exception val => e <- load exception ;; _) s);
        auto using wf_entered.
  - intros command arg from_tty m Hb. split.
    + apply Hnot, well_nested_catch_command_errors; auto.
    + rewrite !catch_command_errors_unfold.
      apply (catch_frame_fuel fuel fuel' (uiout s) m (command arg from_tty) tt
               (fun exception val => e <- load exception ;; _) s);
        auto using wf_entered.
Qed.

(** X10.  [CATCH_ITER_1] drives an inner loop once around: on a frame in
    [CATCHER_RUNNING] the first call returns 1 and the second returns 0,
    and after the two calls the debugger is in the state it started
    from. *)
Theorem catch_iter_1_twice (s : gdb) (c : catcher) (prev : list catcher) :
  current_catcher s = c :: prev ->
  state c = CATCHER_RUNNING ->
  exists s1,
    catcher_state_machine CATCH_ITER_1 s = Returns 1 s1
    /\ current_catcher s1 = set_state CATCHER_RUNNING_1 c :: prev
    /\ catcher_state_machine CATCH_ITER_1 s1 = Returns 0 s.
Proof.
  intros Hs Hc.
  exists (set_current_catcher (set_state CATCHER_RUNNING_1 c :: prev) s).
  split; [|split].
  - apply (csm_set_state s c prev CATCH_ITER_1 CATCHER_RUNNING
             CATCHER_RUNNING_1 1 Hs Hc). auto.
  - reflexivity.
  - rewrite (csm_set_state
               (set_current_catcher (set_state CATCHER_RUNNING_1 c :: prev) s)
               (set_state CATCHER_RUNNING_1 c) prev CATCH_ITER_1
               CATCHER_RUNNING_1 CATCHER_RUNNING 0 eq_refl eq_refl)
      by auto.
    f_equal. destruct s, c. cbn in *. subst. reflexivity.
Qed.


(** ** Throws that nobody claims, and cleanups *)

(** X11.  An exception that no catcher claims falls off the stack: thrown
    inside nested catch invocations none of which claims it, with no
    catcher around them, it is relayed by each, every frame is popped and
    [uiout] put back, and the last relay finds [current_catcher] null:
    the behaviour is undefined. *)
Theorem unclaimed_throw_falls_off (fuel : nat) (inner : list level)
    (e : exception) (s : gdb) :
  (2 <= fuel)%nat -> wf s -> current_catcher s = [] ->
  Forall (fun l => claims (level_mask l) e = false) inner ->
  exists s',
    nest fuel inner (throw_exception e) s = Undefined NullCatcher s'
    /\ current_catcher s' = []
    /\ uiout s' = uiout s.
Proof.
  intros Hfuel Hwf Hs Hinner.
  destruct Hinner as [|l ls Hl Hls]; cbn [nest].
  - rewrite throw_exception_empty by exact Hs. eexists. split; [reflexivity|].
    rewrite throw_prelude_catchers, throw_prelude_uiout. auto.
  - set (s1 := entered (level_uiout l s) (level_mask l) s).
    destruct (nest_throws fuel ls e Hfuel Hls s1 _ _
                (wf_entered _ _ s Hwf) eq_refl (or_introl eq_refl))
      as (s2 & Hbody & Hok & He).
    cbn [buf exception_ptr] in Hbody, Hok, He.
    destruct (run_level_throws fuel l _ s e _ _ s2 Hfuel Hwf Hbody Hok He)
      as [Hrelay _].
    rewrite (Hrelay Hl).
    rewrite throw_exception_empty by exact Hs.
    eexists. split; [reflexivity|].
    rewrite throw_prelude_catchers, throw_prelude_uiout. auto.
Qed.

(** X12.  A throw runs the cleanups registered since the innermost catch
    primitive was entered, and not those pending when it was called.
    [catch_exception] around an operation that has registered the cleanups
    [cs] when it throws: [do_cleanups] runs [cs]; when the mask claims the
    exception, the cleanups of the caller are back in the chain, not run;
    when it does not, the exception is thrown again from a state in which
    they are back, so that the relay runs them next. *)
Theorem throw_runs_cleanups_of_innermost_catch (fuel : nat) (u : ui_out)
    (args : Z) (m : Z) (cs : list cleanup) (e : exception) (s : gdb) :
  (2 <= fuel)%nat -> wf s ->
  let result :=
    catch_exception fuel u
      (fun _ _ => modify (set_cleanup_chain cs) ;; throw_exception e)
      args m s in
  exists s_pop,
    result = (if claims m e then Returns e s_pop
              else throw_exception e s_pop)
    /\ cleanup_chain s_pop = cleanup_chain s
    /\ current_catcher s_pop = current_catcher s
    /\ uiout s_pop = uiout s
    /\ trace s_pop
       = trace s
         ++ [Call_bpstat_clear_actions; Call_disable_current_display;
             Call_do_cleanups cs]
         ++ (if target_can_async_p s && (target_executing s =? 0)
             then [Call_do_exec_cleanups] else [])
         ++ (if sync_execution s =? 0 then []
             else [Call_do_exec_error_cleanups]).
Proof.
  intros Hfuel Hwf result. subst result.
  set (s1 := set_cleanup_chain cs (entered u m s)).
  assert (Hwf1 : wf s1) by (apply (wf_entered u m s Hwf)).
  assert (Hbody : (modify (set_cleanup_chain cs) ;; throw_exception (A:=unit) e)
                    (entered u m s)
                  = LongJmp (S (brk s)) (reason e)
                      (set_mem (<[brk s := e]> (mem s1))
                         (set_current_catcher
                            (set_state CATCHER_ABORTING
                               {| state := CATCHER_RUNNING; buf := S (brk s);
                                  exception_ptr := brk s; mask := m;
                                  saved_uiout := uiout s;
                                  saved_cleanup_chain := cleanup_chain s |}
                             :: current_catcher s)
                            (throw_prelude s1)))).
  { unfold bind, modify.
    apply (throw_exception_running e s1 _ (current_catcher s) eq_refl
             (or_introl eq_refl)). }
  assert (Hok : outcome_ok (entered u m s)
                  ((modify (set_cleanup_chain cs) ;;
                    throw_exception (A:=unit) e) (entered u m s))).
  { unfold bind, modify.
    apply (outcome_ok_from (entered u m s) s1); auto.
    apply outcome_ok_throw_exception, Hwf1. }
  rewrite catch_exception_unfold.
  rewrite (catch_frame_load fuel u m _ tt (fun e0 _ => ret e0) s Hfuel Hwf Hok).
  rewrite Hbody. cbn [mem set_mem]. rewrite lookup_insert_eq.
  eexists. split; [reflexivity|].
  split; [reflexivity|]. split; [reflexivity|]. split; [reflexivity|].
  cbn [trace restored set_uiout set_cleanup_chain set_current_catcher set_mem].
  rewrite throw_prelude_trace. reflexivity.
Qed.


(** ** The catcher stack *)

Lemma bind_assoc {A B C} (m : M A) (k : A -> M B) (h : B -> M C) s :
  bind (bind m k) h s = bind m (fun a => bind (k a) h) s.
Proof. unfold bind. destruct (m s); reflexivity. Qed.

Lemma bind_ext {A B} (m : M A) (k k' : A -> M B) s :
  (forall a s', k a s' = k' a s') -> bind m k s = bind m k' s.
Proof. intros Hk. unfold bind. destruct (m s); auto. Qed.

Lemma pop_times_end n s :
  pop_times (S n) s = (pop_times n ;; catcher_pop) s.
Proof.
  revert s. induction n as [|n IH]; intros s.
  - cbn [pop_times]. unfold bind, ret.
    destruct (catcher_pop s) as [[] s'| | | |]; reflexivity.
  - change (pop_times (S (S n)) s)
      with ((catcher_pop ;; pop_times (S n)) s).
    change ((pop_times (S n) ;; catcher_pop) s)
      with (((catcher_pop ;; pop_times n) ;; catcher_pop) s).
    rewrite bind_assoc. apply bind_ext. intros _ s'. apply IH.
Qed.

Lemma catcher_init_eq u p m s :
  catcher_init u p m s
  = Returns (brk s)
      (set_current_catcher
         ({| state := CATCHER_CREATED; buf := brk s; exception_ptr := p;
             mask := m; saved_uiout := uiout s;
             saved_cleanup_chain := cleanup_chain s |} :: current_catcher s)
         (set_cleanup_chain []
            (set_uiout u
               (set_mem (<[p := exception_none]> (mem s))
                  (set_brk (S (brk s)) s))))).
Proof. reflexivity. Qed.

(** X13.  The catcher stack is last in, first out: after any number of
    frames pushed by [catcher_init], each with its own [uiout], the same
    number of [catcher_pop] gives back the stack, the [uiout] and the
    cleanup chain there were before the first push. *)
Theorem push_all_pop_all (frames : list (ui_out * addr * Z)) (s : gdb) :
  exists s',
    (push_all frames ;; pop_times (length frames)) s = Returns tt s'
    /\ current_catcher s' = current_catcher s
    /\ uiout s' = uiout s
    /\ cleanup_chain s' = cleanup_chain s.
Proof.
  revert s. induction frames as [|[[u p] m] frames IH]; intros s.
  - exists s. repeat split; reflexivity.
  - cbn [push_all length]. unfold bind at 1 2. rewrite catcher_init_eq.
    match goal with
    | |- context [push_all frames ?s1] =>
        destruct (IH s1) as (s2 & E & Hst & Hu & Hch)
    end.
    revert E. unfold bind at 1.
    destruct (push_all frames _) as [[] s3| | | |]; try discriminate.
    intros E. rewrite pop_times_end. unfold bind at 1. rewrite E.
    cbn [current_catcher set_current_catcher] in Hst.
    rewrite (catcher_pop_eq _ _ _ Hst).
    eexists. split; [reflexivity|]. repeat split; reflexivity.
Qed.

(** X14.  The assertion [val >= 0] of [catch_exceptions_with_msg] is a
    gate: when the operation completes with a negative value, the call does
    not return it.  The frame is popped, nothing is printed, and the call
    ends in [internal_error] at the assertion, whatever the mask and the
    message slot. *)
Theorem negative_value_fails_assertion (fuel : nat) (u : ui_out)
    (func : catch_exceptions_ftype) (args : Z) (gdberrmsg : option addr)
    (m : Z) (s : gdb) (v : Z) (s2 : gdb) :
  (2 <= fuel)%nat -> wf s -> well_nested (func u args) ->
  func u args (entered u m s) = Returns v s2 -> v < 0 ->
  catch_exceptions_with_msg fuel u func args gdberrmsg m s
  = InternalError 467 "val >= 0" (restored s s2).
Proof.
  intros Hfuel Hwf Hbody Hret Hneg.
  pose proof (Hbody _ (wf_entered u m s Hwf)) as Hok.
  rewrite catch_exceptions_with_msg_unfold.
  rewrite (catch_frame_load fuel u m (func u args) 0 _ s Hfuel Hwf Hok).
  rewrite Hret.
  unfold bind, print_any_exception, pending_with_message, gdb_assert.
  cbn [reason exception_none andb]. change (0 <? 0) with false.
  cbn [andb]. unfold ret at 1.
  assert (Hle : (0 <=? v) = false) by (apply Z.leb_gt; exact Hneg).
  rewrite Hle. reflexivity.
Qed.

End MoreOfTheFile.

Section MoreExamples.

#[local] Existing Instance gdb_header.


(** X5 inside a catch primitive, with "old" in [last_message]: a throw
    with a plain format leaves "bad value" there; a throw that formats the
    old message reads the released buffer. *)
Lemma last_message_after_throw_witness :
  let s :=
    set_last_message (Some "old")
      (inside CATCHER_RUNNING RETURN_MASK_ALL exception_none) in
  (formatted "bad value" [] = Some "bad value"
   /\ formatted "again: %s" [Str_last_message] = None
   /\ formatted Str_last_message [] = None)
  /\ (exists s',
        outcome_state (throw_error (A:=Z) GENERIC_ERROR "bad value" [] s)
        = Some s'
        /\ last_message s' = Some "bad value")
  /\ throw_error (A:=Z) GENERIC_ERROR "again: %s" [Str_last_message] s
     = Undefined FreedBuffer s.
Proof.
  intros s. split; [split; [|split]; reflexivity|]. split.
  - destruct (outcome_state (throw_error (A:=Z) GENERIC_ERROR "bad value" [] s))
      as [s'|] eqn:E; [|vm_compute in E; discriminate E].
    exists s'. split; [reflexivity|].
    exact (proj1 (proj2 (proj2 (last_message_after_throw (A:=Z) s s')))
             GENERIC_ERROR "bad value" [] "bad value" eq_refl E).
  - exact (proj2 (proj2
             (proj1 (proj2 (proj2 (proj2 (proj2
                (last_message_after_throw (A:=Z) s s)))))
                GENERIC_ERROR "again: %s" [Str_last_message] eq_refl))).
Defined.

(** X6 on a frame that [catcher_init] has just pushed: a throw before the
    loop has started ends in [internal_error] at line 148. *)
Lemma throw_on_frame_not_running_witness :
  let s := inside CATCHER_CREATED RETURN_MASK_ALL exception_none in
  (current_catcher s = [frame CATCHER_CREATED RETURN_MASK_ALL]
   /\ (state (frame CATCHER_CREATED RETURN_MASK_ALL) = CATCHER_CREATED
       \/ state (frame CATCHER_CREATED RETURN_MASK_ALL) = CATCHER_ABORTING))
  /\ throw_exception (A:=unit)
       {| reason := RETURN_QUIT; error := NO_ERROR; message := None |} s
     = InternalError 148 "bad state" (throw_prelude s).
Proof.
  intros s. split; [split; [reflexivity | left; reflexivity]|].
  exact (proj1 (throw_on_frame_not_running (A:=unit) _ s
                  (frame CATCHER_CREATED RETURN_MASK_ALL) [] eq_refl
                  (or_introl eq_refl))).
Defined.

(** X7 on an operation that throws a generic error: [catch_exception]
    returns the exception, message included. *)
Lemma catch_exception_result_witness :
  ((2 <= 2)%nat /\ wf idle
   /\ well_nested (throw_error (A:=unit) GENERIC_ERROR "bad value" []))
  /\ exists s',
       catch_exception 2 9
         (fun _ _ => throw_error GENERIC_ERROR "bad value" [])
         0 RETURN_MASK_ALL idle
       = Returns {| reason := RETURN_ERROR; error := GENERIC_ERROR;
                    message := Some "bad value" |} s'.
Proof.
  split.
  { split; [lia|]. split; [exact wf_idle|]. apply well_nested_throw_error. }
  pose proof (catch_exception_result 2 9
                (fun _ _ => throw_error GENERIC_ERROR "bad value" [])
                0 RETURN_MASK_ALL idle (le_n 2) wf_idle
                (well_nested_throw_error _ _ _)) as Hthm.
  cbv beta zeta in Hthm.
  destruct (throw_error GENERIC_ERROR "bad value" []
              (entered 9 RETURN_MASK_ALL idle))
    as [v s2|t r s2|l msg s2|w s2|] eqn:Ef;
    try (vm_compute in Ef; discriminate Ef).
  destruct Hthm as (e & He & Hres & _).
  assert (Es2 : mem s2 !! 0%nat
                = Some {| reason := RETURN_ERROR; error := GENERIC_ERROR;
                          message := Some "bad value" |}).
  { vm_compute in Ef. injection Ef as _ _ <-. reflexivity. }
  change (brk idle) with 0%nat in He. rewrite Es2 in He.
  injection He as <-.
  exists (restored idle s2). exact Hres.
Defined.


(** X9 on [catch_errors] around a throw: two units of fuel and five give
    the same outcome. *)
Lemma catch_primitives_terminate_witness :
  ((2 <= 2)%nat /\ (2 <= 5)%nat /\ wf idle
   /\ well_nested (throw_error (A:=Z) GENERIC_ERROR "bad value" []))
  /\ catch_errors 2 (fun _ => throw_error GENERIC_ERROR "bad value" [])
       0 None RETURN_MASK_ALL idle
     = catch_errors 5 (fun _ => throw_error GENERIC_ERROR "bad value" [])
         0 None RETURN_MASK_ALL idle.
Proof.
  split.
  { split; [lia|]. split; [lia|]. split; [exact wf_idle|].
    apply well_nested_throw_error. }
  exact (proj2 (proj1 (proj2 (proj2
    (catch_primitives_terminate 2 5 idle (le_n 2)
       (le_S _ _ (le_S _ _ (le_S _ _ (le_n 2)))) wf_idle)))
      (fun _ => throw_error GENERIC_ERROR "bad value" []) 0 None
      RETURN_MASK_ALL (well_nested_throw_error _ _ _))).
Defined.

(** X10 inside a catch primitive whose frame is running. *)
Lemma catch_iter_1_twice_witness :
  let s := inside CATCHER_RUNNING RETURN_MASK_ALL exception_none in
  (current_catcher s = [frame CATCHER_RUNNING RETURN_MASK_ALL]
   /\ state (frame CATCHER_RUNNING RETURN_MASK_ALL) = CATCHER_RUNNING)
  /\ exists s1,
       catcher_state_machine CATCH_ITER_1 s = Returns 1 s1
       /\ catcher_state_machine CATCH_ITER_1 s1 = Returns 0 s.
Proof.
  intros s. split; [split; reflexivity|].
  destruct (catch_iter_1_twice s (frame CATCHER_RUNNING RETURN_MASK_ALL) []
              eq_refl eq_refl) as (s1 & E1 & _ & E2).
  exists s1. split; assumption.
Defined.

(** X11 on Scenario B with nothing around it: a quit thrown inside two
    nested [catch_errors] that accept errors only passes both and finds no
    catcher. *)
Lemma unclaimed_throw_falls_off_witness :
  let quit := {| reason := RETURN_QUIT; error := 0; message := None |} in
  let inner := [By_catch_errors 0 None RETURN_MASK_ERROR;
                By_catch_errors 0 None RETURN_MASK_ERROR] in
  ((2 <= 2)%nat /\ wf idle /\ current_catcher idle = []
   /\ Forall (fun l => claims (level_mask l) quit = false) inner)
  /\ exists s',
       nest 2 inner (throw_exception quit) idle = Undefined NullCatcher s'
       /\ current_catcher s' = [] /\ uiout s' = 7.
Proof.
  intros quit inner.
  assert (Hinner : Forall (fun l => claims (level_mask l) quit = false) inner)
    by (repeat constructor).
  split.
  { split; [lia|]. split; [exact wf_idle|]. split; [reflexivity|].
    exact Hinner. }
  exact (unclaimed_throw_falls_off 2 inner quit idle (le_n 2) wf_idle
           eq_refl Hinner).
Defined.

(** X12 with two cleanups pending at the call and one registered by the
    operation: the throw runs the one; the two are back afterwards. *)
Lemma throw_runs_cleanups_of_innermost_catch_witness :
  let bad := {| reason := RETURN_ERROR; error := GENERIC_ERROR;
                message := Some "bad value" |} in
  ((2 <= 2)%nat /\ wf idle)
  /\ exists s',
       catch_exception 2 9
         (fun _ _ => modify (set_cleanup_chain [102]) ;; throw_exception bad)
         0 RETURN_MASK_ALL idle = Returns bad s'
       /\ cleanup_chain s' = [100; 101]
       /\ trace s'
          = [Call_bpstat_clear_actions; Call_disable_current_display;
             Call_do_cleanups [102]].
Proof.
  intros bad. split; [split; [lia | exact wf_idle]|].
  destruct (throw_runs_cleanups_of_innermost_catch 2 9 0 RETURN_MASK_ALL
              [102] bad idle (le_n 2) wf_idle)
    as (s' & E & Hch & _ & _ & Ht).
  exists s'. split; [exact E|]. split; [exact Hch | exact Ht].
Defined.

(** X14 on an operation that returns -1. *)
Lemma negative_value_fails_assertion_witness :
  ((2 <= 2)%nat /\ wf idle /\ well_nested (ret (-1))
   /\ ret (-1) (entered 9 RETURN_MASK_ALL idle)
      = Returns (-1) (entered 9 RETURN_MASK_ALL idle)
   /\ -1 < 0)
  /\ catch_exceptions_with_msg 2 9 (fun _ _ => ret (-1)) 0 None
       RETURN_MASK_ALL idle
     = InternalError 467 "val >= 0"
         (restored idle (entered 9 RETURN_MASK_ALL idle)).
Proof.
  split.
  { split; [lia|]. split; [exact wf_idle|].
    split; [apply well_nested_ret|]. split; [reflexivity | lia]. }
  exact (negative_value_fails_assertion 2 9 (fun _ _ => ret (-1)) 0 None
           RETURN_MASK_ALL idle (-1) (entered 9 RETURN_MASK_ALL idle)
           (le_n 2) wf_idle (well_nested_ret (-1)) eq_refl eq_refl).
Defined.

End MoreExamples.
